(** * Diagnostic reasoning engine: model of the Python sources

    A shallow embedding of [neo4j_utils.py], [bayes_utils.py] and the
    diagnosis flow of [main.py].

    - Python [str] values are [string]s; [str.strip] and [str.title] are
      modelled on ASCII text (bytes above 127 are kept unchanged and are
      neither white space nor cased).
    - Python [float] probabilities are exact rationals ([Qc]).
    - The Neo4j store is a record of node and relationship tables; each
      Cypher query is a function on that record.
    - [time.time()] is an argument [ts] of the operation that reads it. *)

From Stdlib Require Import ZArith QArith Qcanon Qround String Ascii.
From stdpp Require Import base numbers list sorting strings gmap.

Local Open Scope string_scope.
Local Open Scope list_scope.
Local Open Scope Z_scope.


(** * Part I: the model *)

(** ** Python string methods *)

Module PyStr.

Definition code (c : ascii) : N := N_of_ascii c.

(** [str.isspace] on one ASCII character. *)
Definition is_space (c : ascii) : bool :=
  let n := code c in
  ((9 <=? n) && (n <=? 13) || (28 <=? n) && (n <=? 32))%N.

Definition is_upper (c : ascii) : bool :=
  let n := code c in ((65 <=? n) && (n <=? 90))%N.

Definition is_lower (c : ascii) : bool :=
  let n := code c in ((97 <=? n) && (n <=? 122))%N.

Definition is_cased (c : ascii) : bool := is_upper c || is_lower c.

Definition to_lower (c : ascii) : ascii :=
  if is_upper c then ascii_of_N (code c + 32) else c.

Definition to_upper (c : ascii) : ascii :=
  if is_lower c then ascii_of_N (code c - 32) else c.

Fixpoint lstrip (s : string) : string :=
  match s with
  | EmptyString => EmptyString
  | String c s' => if is_space c then lstrip s' else s
  end.

Fixpoint rstrip (s : string) : string :=
  match s with
  | EmptyString => EmptyString
  | String c s' =>
      match rstrip s' with
      | EmptyString => if is_space c then EmptyString else String c EmptyString
      | r => String c r
      end
  end.

(** [s.strip()] *)
Definition strip (s : string) : string := rstrip (lstrip s).

(** [s.lower()] *)
Fixpoint lower (s : string) : string :=
  match s with
  | EmptyString => EmptyString
  | String c s' => String (to_lower c) (lower s')
  end.

(** [s.title()]: a character that follows a cased character is lowered,
    any other character is put in title case. *)
Fixpoint title_from (previous_is_cased : bool) (s : string) : string :=
  match s with
  | EmptyString => EmptyString
  | String c s' =>
      String (if previous_is_cased then to_lower c else to_upper c)
             (title_from (is_cased c) s')
  end.

Definition title (s : string) : string := title_from false s.

(** Truth value of a string: non-empty. *)
Definition truthy (s : string) : bool :=
  match s with EmptyString => false | String _ _ => true end.

(** [sep.join(l)] *)
Definition join (sep : string) (l : list string) : string := String.concat sep l.

End PyStr.

(** ** Symptom normalisation shared by the query helpers *)

(** [[s.strip().title() for s in symptoms if s.strip()]] *)
Definition normalized (symptoms : list string) : list string :=
  (λ s, PyStr.title (PyStr.strip s)) <$>
    filter (λ s, Is_true (PyStr.truthy (PyStr.strip s))) symptoms.

(** [{s.strip().title() for s in symptoms if s.strip()}] *)
Definition normalized_set (symptoms : list string) : gset string :=
  list_to_set (normalized symptoms).

(** [sorted(X)] for a set of strings; the iteration order of the set is
    that of [elements]. *)
Definition sorted (X : gset string) : list string :=
  merge_sort String.le (elements X).

(** [_sym_key] *)
Definition _sym_key (symptoms : list string) : string :=
  PyStr.join "|" (sorted (normalized_set symptoms)).

(** ** The symptom set behind a list *)

(** The symptom set a list stands for, whatever the order, repetition,
    letter case or outer blanks of its entries: the trimmed, lower-cased
    non-blank entries. *)
Definition underlying (symptoms : list string) : gset string :=
  list_to_set ((λ s, PyStr.lower (PyStr.strip s)) <$>
    filter (λ s, Is_true (PyStr.truthy (PyStr.strip s))) symptoms).

(** Two strings that differ by letter case only. *)
Definition case_variant (s t : string) : Prop := PyStr.lower s = PyStr.lower t.

(** ** The graph store *)

(** A [(:SpecialCase)] node. [last_seen] is set by the first ON MATCH;
    [patients] is absent on a node made by [upsert_special_case]. *)
Record SpecialCase := {
  sc_symptoms : list string;
  first_seen : Z;
  last_seen : option Z;
  hits : Z;
  patients : option (list string)
}.

(** An [(:Audit)] node: the action and the fields of the details. *)
Record AuditNode := {
  action : string;
  details : list (string * list string)
}.

(** The nodes and relationships the engine reads and writes. Nodes made
    by MERGE are identified by their name (by [sym_key] for a special
    case). *)
Record Store := {
  symptom_nodes : list string;
  disease_nodes : list string;
  person_nodes : list string;
  has_symptom : list (string * string);
  special_cases : gmap string SpecialCase;
  case_has_symptom : list (string * string);
  diagnosed_with : list (string * string * Qc);
  audit : list AuditNode
}.

(** [MATCH (x)-[:HAS_SYMPTOM]->(s:Symptom) WHERE s.name IN $symptoms
     WITH x, collect(DISTINCT s.name) AS found]:
    one row per start node with a matching relationship. *)
Definition found_symptoms (rel : list (string * string)) (symptoms : list string)
    (x : string) : list string :=
  remove_dups (snd <$> filter (λ r, r.1 = x) (filter (λ r, r.2 ∈ symptoms) rel)).

Definition collect_matches (rel : list (string * string)) (symptoms : list string)
    : list (string * list string) :=
  (λ x, (x, found_symptoms rel symptoms x)) <$>
    remove_dups (fst <$> filter (λ r, r.2 ∈ symptoms) rel).

(** [diseases_by_symptoms], on a store that answers the query. *)
Definition diseases_by_symptoms (st : Store) (symptoms : list string)
    (min_matches : option Z) : list string :=
  let sympts := normalized symptoms in
  match sympts with
  | [] => []
  | _ =>
      let needed :=
        match min_matches with
        | None => Z.of_nat (length sympts)
        | Some m => Z.max 1 m
        end in
      fst <$> filter (λ g, needed ≤ Z.of_nat (length g.2))
                (collect_matches (has_symptom st) sympts)
  end.

(** The symptom set recorded for a start node [x]: the targets of its
    relationships. *)
Definition targets (rel : list (string * string)) (x : string) : gset string :=
  list_to_set (snd <$> filter (λ r, r.1 = x) rel).

Definition symptom_set (st : Store) (d : string) : gset string :=
  targets (has_symptom st) d.

Definition graph_of (edges : list (string * string)) : Store :=
  {| symptom_nodes := remove_dups (snd <$> edges);
     disease_nodes := remove_dups (fst <$> edges);
     person_nodes := [];
     has_symptom := edges;
     special_cases := ∅;
     case_has_symptom := [];
     diagnosed_with := [];
     audit := [] |}.

(** Flu has Fever and Cough; COVID-19 has these and Loss Of Smell. *)
Definition flu_covid : Store :=
  graph_of [("Flu", "Fever"); ("Flu", "Cough");
            ("COVID-19", "Fever"); ("COVID-19", "Cough");
            ("COVID-19", "Loss Of Smell")].

(** ** The special-case registry *)

(** [log_audit] on a store that accepts the write: one more [(:Audit)]
    node. *)
Definition log_audit (st : Store) (act : string)
    (d : list (string * list string)) : Store :=
  {| symptom_nodes := symptom_nodes st;
     disease_nodes := disease_nodes st;
     person_nodes := person_nodes st;
     has_symptom := has_symptom st;
     special_cases := special_cases st;
     case_has_symptom := case_has_symptom st;
     diagnosed_with := diagnosed_with st;
     audit := audit st ++ [{| action := act; details := d |}] |}.

(** [MERGE] of a node or relationship identified by [x]. *)
Definition merge {A} `{EqDecision A} (l : list A) (x : A) : list A :=
  if decide (x ∈ l) then l else l ++ [x].

(** [ON CREATE SET] of [upsert_special_case_with_patient]. *)
Definition created_with_patient (sympts : list string) (patient : string) (ts : Z)
    : SpecialCase :=
  {| sc_symptoms := sympts; first_seen := ts; last_seen := None; hits := 1;
     patients := Some [patient] |}.

(** [ON MATCH SET] of [upsert_special_case_with_patient]. On a node
    without a [patients] property both [$patient IN c.patients] and
    [c.patients + [$patient]] are null, and the property stays absent. *)
Definition matched_with_patient (c : SpecialCase) (patient : string) (ts : Z)
    : SpecialCase :=
  {| sc_symptoms := sc_symptoms c; first_seen := first_seen c;
     last_seen := Some ts; hits := hits c + 1;
     patients :=
       match patients c with
       | Some ps => Some (if decide (patient ∈ ps) then ps else ps ++ [patient])
       | None => None
       end |}.

(** The write of the upsert query: the MERGE of the special case, then
    for each symptom of [$symptoms] the MERGE of its node and of the
    relationship to it. *)
Definition write_special_case (st : Store) (key : string) (c : SpecialCase)
    (sympts : list string) : Store :=
  {| symptom_nodes := foldl merge (symptom_nodes st) sympts;
     disease_nodes := disease_nodes st;
     person_nodes := person_nodes st;
     has_symptom := has_symptom st;
     special_cases := <[key := c]> (special_cases st);
     case_has_symptom := foldl merge (case_has_symptom st) ((λ s, (key, s)) <$> sympts);
     diagnosed_with := diagnosed_with st;
     audit := audit st |}.

(** [upsert_special_case_with_patient], on a store that accepts the
    write. The query returns one row per symptom, so no row and [None]
    for an input without a non-blank symptom. *)
Definition upsert_special_case_with_patient (st : Store) (symptoms : list string)
    (patient_name : string) (ts : Z) : Store * option SpecialCase :=
  let key := _sym_key symptoms in
  let sympts := elements (normalized_set symptoms) in
  let c :=
    match special_cases st !! key with
    | None => created_with_patient sympts patient_name ts
    | Some c0 => matched_with_patient c0 patient_name ts
    end in
  let st1 := write_special_case st key c sympts in
  let st2 := log_audit st1 "UPSERT_SPECIAL_CASE_WITH_PATIENT"
               [("key", [key]); ("symptoms", sympts); ("patient", [patient_name])] in
  (st2, match sympts with [] => None | _ => Some c end).

(** [find_special_case] *)
Definition find_special_case (st : Store) (symptoms : list string)
    : option SpecialCase :=
  special_cases st !! _sym_key symptoms.

(** [int(x)] of a float: truncation towards zero. *)
Definition py_int (x : Qc) : Z := Z.quot (Qnum x) (Zpos (Qden x)).

(** A row of [find_similar_special_cases]: the properties of the special
    case with its key and the matched symptoms. *)
Record SimilarCase := {
  sym_key : string;
  properties : option SpecialCase;
  matched_symptoms : list string
}.

(** [ORDER BY size(matched_symptoms) DESC] *)
Definition more_matched (a b : SimilarCase) : Prop :=
  (length (matched_symptoms b) ≤ length (matched_symptoms a))%nat.

#[global] Instance more_matched_dec : RelDecision more_matched.
Proof. intros a b. unfold more_matched. apply _. Defined.

(** [find_similar_special_cases], on a store that answers the query. *)
Definition find_similar_special_cases (st : Store) (symptoms : list string)
    (similarity_threshold : Qc) : list SimilarCase :=
  let sympts := elements (normalized_set symptoms) in
  let min_matches :=
    Z.max 1 (py_int (Qc_of_Z (Z.of_nat (length sympts)) * similarity_threshold)) in
  merge_sort more_matched
    ((λ g, {| sym_key := g.1; properties := special_cases st !! g.1;
              matched_symptoms := g.2 |}) <$>
     filter (λ g, min_matches ≤ Z.of_nat (length g.2))
       (collect_matches (case_has_symptom st) sympts)).

Definition empty_store : Store := graph_of [].

Definition half : Qc := Q2Qc (1 # 2).

(** The symptoms a special case shares with the input: its linked
    symptoms that are among the normalised input symptoms. *)
Definition shared_symptoms (st : Store) (symptoms : list string) (k : string)
    : gset string :=
  targets (case_has_symptom st) k ∩ normalized_set symptoms.

(** The store after Ann was recorded once with the single symptom Fever. *)
Definition one_fever_case : Store :=
  (upsert_special_case_with_patient empty_store ["Fever"] "Ann" 1000).1.

(** [upsert(symptoms, patient)] repeated: one call after the other, each
    with its own spelling of the symptoms, patient name and time. *)
Definition upsert_all (st : Store) (calls : list (list string * string * Z)) : Store :=
  foldl (λ st c, (upsert_special_case_with_patient st c.1.1 c.1.2 c.2).1) st calls.

(** ** The Bayesian network *)

(** [symptom_probabilities.json]: disease name to a table of overrides,
    under the key [base_prob] or a symptom name. *)
Abbreviation Probs := (gmap string (gmap string Qc)).

(** [probs.get(dis, {}).get(key, fallback)] *)
Definition prob_get (probs : Probs) (dis key : string) (fallback : Qc) : Qc :=
  default fallback (default ∅ (probs !! dis) !! key).

(** [max(a, b)] of two numbers: [b] when it is greater, else [a]. *)
Definition py_max (a b : Qc) : Qc := if decide (a < b)%Qc then b else a.

(** The probability of a symptom given a disease without an override. *)
Definition SYMPTOM_PROB : Qc := Q2Qc (8 # 10).

(** The defaults of [settings.py]. *)
Definition MIN_PROB_default : Qc := Q2Qc (1 # 100).
Definition UNUSUAL_THRESH_default : Qc := Q2Qc (15 # 100).

(** [_fetch_graph]: one entry per disease with a symptom, with the
    symptom of each of its relationships. *)
Definition _fetch_graph (st : Store) : list (string * list string) :=
  (λ d, (d, snd <$> filter (λ r, r.1 = d) (has_symptom st))) <$>
    remove_dups (fst <$> has_symptom st).

(** [[(i >> j) & 1 for j in reversed(range(k))]] *)
Definition bits (k : nat) (i : Z) : list Z :=
  (λ j : nat, Z.land (Z.shiftr i (Z.of_nat j)) 1) <$> reverse (seq 0 k).

(** A [TabularCPD]. *)
Record TabularCPD := {
  variable : string;
  variable_card : Z;
  values : list (list Qc);
  evidence : list string;
  evidence_card : list Z
}.

(** A [DiscreteBayesianNetwork] with its CPDs. *)
Record Model := {
  edges : list (string * string);
  cpds : list TabularCPD
}.

Definition nodes (m : Model) : list string :=
  remove_dups ((fst <$> edges m) ++ (snd <$> edges m)).

Section build_model.

(** [settings.MIN_PROB] *)
Variable MIN_PROB : Qc.
Variable probs : Probs.

(** The body of the loop over [i]: the true-branch probability of the
    row with bit pattern [bits]. *)
Definition p_true_of (dis : string) (syms : list string) (bs : list Z) : Qc :=
  foldl (λ p_true b_sym,
           if decide (b_sym.1 = 1)
           then py_max p_true (prob_get probs dis b_sym.2 SYMPTOM_PROB)
           else p_true)
        (prob_get probs dis "base_prob" MIN_PROB)
        (zip bs syms).

Definition row_true (dis : string) (syms : list string) : list Qc :=
  (λ i, p_true_of dis syms (bits (length syms) i)) <$>
    seqZ 0 (2 ^ Z.of_nat (length syms)).

Definition row_false (dis : string) (syms : list string) : list Qc :=
  (λ i, 1 - p_true_of dis syms (bits (length syms) i))%Qc <$>
    seqZ 0 (2 ^ Z.of_nat (length syms)).

Definition disease_cpd (dis : string) (syms : list string) : TabularCPD :=
  {| variable := dis; variable_card := 2;
     values := [row_false dis syms; row_true dis syms];
     evidence := syms;
     evidence_card := replicate (length syms) 2 |}.

Definition symptom_cpd (s : string) : TabularCPD :=
  {| variable := s; variable_card := 2;
     values := [[Q2Qc (1 # 2)]; [Q2Qc (1 # 2)]];
     evidence := []; evidence_card := [] |}.

(** The model compiled from a disease-to-symptoms mapping. The
    validation by [model.check_model()] is the library's and is not
    modelled: this is the model when it passes. *)
Definition compile (mapping : list (string * list string)) : Model :=
  {| edges := mapping ≫= (λ ds, (λ sym, (sym, ds.1)) <$> ds.2);
     cpds := (symptom_cpd <$> remove_dups (mapping ≫= snd))
             ++ ((λ ds, disease_cpd ds.1 ds.2) <$> mapping) |}.

(** [build_model], with the module-level [_cached_model] passed in and
    out. *)
Definition build_model (_cached_model : option Model) (st : Store)
    : Model * option Model :=
  match _cached_model with
  | Some m => (m, _cached_model)
  | None => let m := compile (_fetch_graph st) in (m, Some m)
  end.

End build_model.

(** [invalidate_cache] *)
Definition invalidate_cache (_cached_model : option Model) : option Model := None.

(** The present/absent combination of row [i]: most significant bit
    first, one flag per symptom. *)
Definition combination (k : nat) (i : Z) : list bool :=
  (λ j : nat, Z.testbit i (Z.of_nat j)) <$> reverse (seq 0 k).

(** The row of a combination: its flags read as a binary number. *)
Fixpoint row_index (combo : list bool) : Z :=
  match combo with
  | [] => 0
  | b :: rest => Z.b2z b * 2 ^ Z.of_nat (length rest) + row_index rest
  end.

(** ** Inference and the diagnosis flows *)

(** A Python [dict] with string keys, in insertion order. *)
Abbreviation dict V := (list (string * V)).

(** [d[k] = v] *)
Fixpoint dict_set {V} (d : dict V) (k : string) (v : V) : dict V :=
  match d with
  | [] => [(k, v)]
  | (k', v') :: rest =>
      if decide (k' = k) then (k, v) :: rest else (k', v') :: dict_set rest k v
  end.

(** [is_unusual] *)
Definition is_unusual (UNUSUAL_THRESH : Qc) (prob_dict : dict Qc) : bool :=
  forallb (λ p, bool_decide (p < UNUSUAL_THRESH)%Qc) (snd <$> prob_dict).

(** [max(d, key=d.get)]: the first key with the greatest value. *)
Fixpoint py_argmax (best : string * Qc) (d : dict Qc) : string * Qc :=
  match d with
  | [] => best
  | kv :: rest => py_argmax (if decide (best.2 < kv.2)%Qc then kv else best) rest
  end.

(** [round(x, 4)], half to even. *)
Definition round4 (x : Qc) : Qc :=
  let y := (x * Qc_of_Z 10000)%Qc in
  let f := Qfloor y in
  let r := (y - Qc_of_Z f)%Qc in
  let n := if decide (r < half)%Qc then f
           else if decide (half < r)%Qc then f + 1
           else if Z.even f then f else f + 1 in
  (Qc_of_Z n / Qc_of_Z 10000)%Qc.

(** [upsert_special_case]: as the upsert with a patient, but no patient
    list is kept and a symptom is linked only when its node exists. *)
Definition upsert_special_case (st : Store) (symptoms : list string) (ts : Z)
    : Store * option SpecialCase :=
  let key := _sym_key symptoms in
  let sympts := elements (normalized_set symptoms) in
  let c :=
    match special_cases st !! key with
    | None => {| sc_symptoms := sympts; first_seen := ts; last_seen := None;
                 hits := 1; patients := None |}
    | Some c0 => {| sc_symptoms := sc_symptoms c0; first_seen := first_seen c0;
                    last_seen := Some ts; hits := hits c0 + 1;
                    patients := patients c0 |}
    end in
  let linked := filter (λ s, s ∈ symptom_nodes st) sympts in
  let st1 :=
    {| symptom_nodes := symptom_nodes st;
       disease_nodes := disease_nodes st;
       person_nodes := person_nodes st;
       has_symptom := has_symptom st;
       special_cases := <[key := c]> (special_cases st);
       case_has_symptom :=
         foldl merge (case_has_symptom st) ((λ s, (key, s)) <$> linked);
       diagnosed_with := diagnosed_with st;
       audit := audit st |} in
  let st2 := log_audit st1 "UPSERT_SPECIAL_CASE"
               [("key", [key]); ("symptoms", sympts)] in
  (st2, match linked with [] => None | _ => Some c end).

(** [create_diagnosis]: the relationship is merged when both nodes
    exist; the audit event is written either way. *)
Definition create_diagnosis (st : Store) (person disease : string) (confidence : Qc)
    : Store :=
  let rels :=
    if decide (person ∈ person_nodes st ∧ disease ∈ disease_nodes st)
    then filter (λ r, r.1 ≠ (person, disease)) (diagnosed_with st)
         ++ [(person, disease, confidence)]
    else diagnosed_with st in
  log_audit
    {| symptom_nodes := symptom_nodes st;
       disease_nodes := disease_nodes st;
       person_nodes := person_nodes st;
       has_symptom := has_symptom st;
       special_cases := special_cases st;
       case_has_symptom := case_has_symptom st;
       diagnosed_with := rels;
       audit := audit st |}
    "CREATE_DIAGNOSIS" [("person", [person]); ("disease", [disease])].

(** [find_unknown_symptoms]; [get_known_symptoms] lists the symptom
    nodes. *)
Definition find_unknown_symptoms (st : Store) (symptoms : list string) : list string :=
  filter (λ s, s ∉ symptom_nodes st) symptoms.

(** The match mode read from the prompt. *)
Definition min_matches_of (mode : string) : option Z :=
  let m := PyStr.lower (PyStr.strip mode) in
  if decide (m = "p") then Some 2 else if decide (m = "w") then Some 1 else None.

(** The match step with its fallback: a strict match without result is
    tried again with threshold 2. *)
Definition match_step (st : Store) (syms : list string) (min_matches : option Z)
    : list string :=
  let diseases := diseases_by_symptoms st syms min_matches in
  match diseases, min_matches with
  | [], None => diseases_by_symptoms st syms (Some 2)
  | _, _ => diseases
  end.

(** The handling of the unusual case and of the best guess in
    [bayes_utils.diagnose_patient]. *)
Definition record_unusual (st : Store) (person : string) (syms : list string) (ts : Z)
    : Store :=
  log_audit (upsert_special_case st syms ts).1 "UNUSUAL_CASE"
    [("person", [person]); ("symptoms", syms)].

Definition record_unusual_with_patient (st : Store) (person : string)
    (syms : list string) (ts : Z) : Store :=
  log_audit (upsert_special_case_with_patient st syms person ts).1 "UNUSUAL_CASE"
    [("person", [person]); ("symptoms", syms)].

Definition record_best (st : Store) (person : string) (result : dict Qc) : Store :=
  match result with
  | [] => st
  | kv :: rest =>
      let best := py_argmax kv rest in
      create_diagnosis st person best.1 best.2
  end.

Section flows.

(** [settings.UNUSUAL_THRESH] and [settings.MIN_PROB] *)
Variable UNUSUAL_THRESH : Qc.
Variable MIN_PROB : Qc.
Variable probs : Probs.

(** The value that the variable elimination of pgmpy computes for
    [P(disease = 1 | evidence)] on a model that has all the variables
    named. *)
Variable posterior : Model → dict Z → string → Qc.

(** [infer.query(variables=[disease], evidence=evidence)[disease].values[1]]:
    the library raises when the variable or an evidence variable is no
    node of the model, or when the variable is also evidence. [None] is
    the exception. *)
Definition infer_query (m : Model) (evidence : dict Z) (disease : string)
    : option Qc :=
  if decide (disease ∈ nodes m ∧ Forall (λ e, e.1 ∈ nodes m) evidence
             ∧ disease ∉ evidence.*1)
  then Some (posterior m evidence disease)
  else None.

(** The loop over the matched diseases: an exception of a query leaves
    the loop and the function. *)
Fixpoint infer_all (m : Model) (evidence : dict Z) (diseases : list string)
    (result : dict Qc) : option (dict Qc) :=
  match diseases with
  | [] => Some result
  | disease :: rest =>
      match infer_query m evidence disease with
      | None => None
      | Some prob => infer_all m evidence rest (dict_set result disease (round4 prob))
      end
  end.

(** [{symptom: 1 for symptom in syms}] *)
Definition evidence_of (syms : list string) : dict Z :=
  foldl (λ d s, dict_set d s 1) [] syms.

(** [bayes_utils.diagnose_patient]: [entries] are the comma-separated
    fields typed at the prompt. The result is the store with the
    probabilities, or [None] when an exception leaves the function, and
    the cached model. What is only printed is left out.

    The module binds [time] to [datetime.time], which has no
    [localtime]: when the bundle lookup finds a bundle, the message
    about it raises AttributeError. *)
Definition bayes_diagnose_patient (_cached_model : option Model) (st : Store)
    (person : string) (entries : list string) (mode : string) (ts : Z)
    : option (Store * dict Qc) * option Model :=
  let syms := normalized entries in
  match find_special_case st syms with
  | Some _ => (None, _cached_model)
  | None =>
      let diseases := match_step st syms (min_matches_of mode) in
      let '(model, cache) := build_model MIN_PROB probs _cached_model st in
      match infer_all model (evidence_of syms) diseases [] with
      | None => (None, cache)
      | Some result =>
          let st1 := if is_unusual UNUSUAL_THRESH result
                     then record_unusual st person syms ts else st in
          (Some (record_best st1 person result, result), cache)
      end
  end.

(** The name [diagnose] that [main.py] imports from [bayes_utils] is
    bound there, at line 17, to [torch.onnx._internal.diagnostics.diagnose],
    the helper of the ONNX exporter of torch that records a diagnostic
    for a rule and a level. Called with the list of symptoms alone it
    returns no mapping of diseases to probabilities: the call raises.
    This is the library's behaviour, taken as given; [None] is the
    exception. *)
Definition diagnose (syms : list string) : option (dict Qc) := None.

(** [main.diagnose_patient]; [ts1] and [ts2] are the times read by the
    two upserts. The result is the store after the attempt with the
    matched diseases and the probabilities, or with [None] when the
    exception of the inference step leaves the function (its caller
    catches it and goes back to the menu). What is only read and
    printed (the similar cases, the bundle found, the per-symptom
    probabilities) is left out. *)
Definition main_diagnose_patient (st : Store) (person : string)
    (entries : list string) (mode : string) (ts1 ts2 : Z)
    : Store * option (list string * dict Qc) :=
  let syms := normalized entries in
  let unknown_syms := find_unknown_symptoms st syms in
  let st1 :=
    match unknown_syms with
    | [] => st
    | _ => (upsert_special_case_with_patient st syms person ts1).1
    end in
  let diseases := match_step st1 syms (min_matches_of mode) in
  match diagnose syms with
  | None => (st1, None)
  | Some probs =>
      let st2 := if is_unusual UNUSUAL_THRESH probs
                 then record_unusual_with_patient st1 person syms ts2 else st1 in
      (record_best st2 person probs, Some (diseases, probs))
  end.

End flows.

(** The number of audit events of an action. *)
Definition count_action (act : string) (log : list AuditNode) : nat :=
  length (filter (λ n, action n = act) log).

(** The model of the two-disease graph. *)
Definition flu_covid_model : Model :=
  (build_model MIN_PROB_default ∅ None flu_covid).1.

(** The hit count of the bundle under a key, 0 when there is none. *)
Definition hits_of (st : Store) (key : string) : Z :=
  default 0 (hits <$> special_cases st !! key).

(** ** The effect of an attempt on the store *)

(** What one upsert or audit write adds: the events after [st], with the
    number of unusual-case events, of upserts with and without patient,
    and the hits added to the bundle under [key]. *)
Record Effect := {
  n_unusual : nat;
  n_upsert_patient : nat;
  n_upsert : nat;
  n_hits : Z
}.

Definition has_effect (key : string) (st st' : Store) (e : Effect) : Prop :=
  ∃ events,
    audit st' = audit st ++ events ∧
    count_action "UNUSUAL_CASE" events = n_unusual e ∧
    count_action "UPSERT_SPECIAL_CASE_WITH_PATIENT" events = n_upsert_patient e ∧
    count_action "UPSERT_SPECIAL_CASE" events = n_upsert e ∧
    hits_of st' key = hits_of st key + n_hits e.

(** ** The audit sink on a store that can fail *)

Module Sink.

Local Open Scope nat_scope.

(** How a call ends: it returns, or an exception leaves it. *)
Inductive outcome := Returns | Raises.

(** The store as the sink sees it: the number of queries attempted so
    far and the actions of the nodes written. *)
Record World := {
  attempts : nat;
  written : list string
}.

Definition attempted (w : World) : World :=
  {| attempts := S (attempts w); written := written w |}.

Definition wrote (act : string) (w : World) : World :=
  {| attempts := S (attempts w); written := written w ++ [act] |}.

Section sink.

(** [fails n]: the query attempted after [n] earlier ones raises. *)
Variable fails : nat → bool.

(** [_run] and [log_audit] call each other. [depth] is the number of
    frames left below the recursion limit of the interpreter: a call
    without a frame left raises RecursionError, which the [except
    Exception] clauses catch like any other exception. An exception
    raised inside an [except] clause leaves the function. *)
Fixpoint _run (depth : nat) (act : string) (w : World) : outcome * World :=
  match depth with
  | 0 => (Raises, w)
  | S d =>
      if fails (attempts w)
      then log_audit d "QUERY_ERROR" (attempted w)
      else (Returns, wrote act w)
  end
with log_audit (depth : nat) (act : string) (w : World) : outcome * World :=
  match depth with
  | 0 => (Raises, w)
  | S d =>
      match _run d act w with
      | (Returns, w1) => (Returns, w1)
      | (Raises, w1) => _run d "AUDIT_LOGGING_FAILED" w1
      end
  end.

(** [login_cli]: the name read is returned, or the empty string when an
    exception is caught. *)
Definition login_cli (depth : nat) (name : string) (w : World) : string * World :=
  match depth with
  | 0 => (""%string, w)
  | S d =>
      match log_audit d "USER_LOGIN" w with
      | (Returns, w1) => (name, w1)
      | (Raises, w1) => (""%string, w1)
      end
  end.

End sink.

(** The store is unreachable: every query raises. *)
Definition store_down : nat → bool := λ _, true.

(** The store fails for the first [n] queries and answers from then on. *)
Definition outage (n : nat) : nat → bool := λ i, bool_decide (i < n)%nat.

End Sink.

(** The graph after Cold with the symptom Cough was loaded. *)
Definition flu_covid_cold : Store :=
  graph_of (has_symptom flu_covid ++ [("Cold", "Cough")]).

(** ** Entity management and the knowledge loader *)

(** [merge_symptom] *)
Definition merge_symptom (st : Store) (name : string) : Store :=
  log_audit
    {| symptom_nodes := merge (symptom_nodes st) name;
       disease_nodes := disease_nodes st;
       person_nodes := person_nodes st;
       has_symptom := has_symptom st;
       special_cases := special_cases st;
       case_has_symptom := case_has_symptom st;
       diagnosed_with := diagnosed_with st;
       audit := audit st |}
    "MERGE_SYMPTOM" [("name", [name])].

(** [merge_disease], called without attributes as the loader does. *)
Definition merge_disease (st : Store) (name : string) : Store :=
  log_audit
    {| symptom_nodes := symptom_nodes st;
       disease_nodes := merge (disease_nodes st) name;
       person_nodes := person_nodes st;
       has_symptom := has_symptom st;
       special_cases := special_cases st;
       case_has_symptom := case_has_symptom st;
       diagnosed_with := diagnosed_with st;
       audit := audit st |}
    "MERGE_DISEASE" [("name", [name])].

(** [connect_disease_symptom]: the relationship is merged when both
    nodes are matched; the audit event is written either way. *)
Definition connect_disease_symptom (st : Store) (disease symptom : string) : Store :=
  log_audit
    {| symptom_nodes := symptom_nodes st;
       disease_nodes := disease_nodes st;
       person_nodes := person_nodes st;
       has_symptom :=
         if decide (disease ∈ disease_nodes st ∧ symptom ∈ symptom_nodes st)
         then merge (has_symptom st) (disease, symptom)
         else has_symptom st;
       special_cases := special_cases st;
       case_has_symptom := case_has_symptom st;
       diagnosed_with := diagnosed_with st;
       audit := audit st |}
    "CONNECT_DISEASE_SYMPTOM" [("disease", [disease]); ("symptom", [symptom])].

(** [read_knowledge_file]: [file] is the lines of the file at [fp], or
    [None] when there is no such file. The details keep the fields that
    are strings; the count of lines is not among them. *)
Definition read_knowledge_file (st : Store) (fp : string) (file : option (list string))
    : Store * list string :=
  match file with
  | Some content =>
      let lines := PyStr.strip <$>
                     filter (λ line, Is_true (PyStr.truthy (PyStr.strip line))) content in
      (log_audit st "KNOWLEDGE_FILE_READ" [("file_path", [fp])], lines)
  | None =>
      (log_audit st "KNOWLEDGE_FILE_READ_ERROR"
         [("file_path", [fp]); ("error", ["File not found"])], [])
  end.

(** The body of the loop of [load] for the pairs of one line. *)
Definition load_pairs (st : Store) (pairs : list (string * string)) : Store :=
  foldl (λ st ds,
           connect_disease_symptom (merge_symptom (merge_disease st ds.1) ds.2)
             ds.1 ds.2)
        st pairs.

(** [knowledge_loader.load]. [extract] stands for
    [nlp_utils.extract_disease_symptom], the parser of the language
    library, taken as a function that returns. *)
Definition load (extract : string → list (string * string)) (st : Store)
    (fp : string) (file : option (list string)) : Store :=
  let '(st1, lines) := read_knowledge_file st fp file in
  let st2 := foldl (λ st line, load_pairs st (extract line)) st1 lines in
  log_audit st2 "KNOWLEDGE_GRAPH_POPULATED" [("file_path", [fp])].

(** ** Symptom-to-disease probabilities *)

(** The rows of the second query of [get_symptom_disease_probabilities]:
    each disease with the symptom, with the count of the rows of the
    optional match grouped under it, the greatest count first. *)
Definition symptom_count (st : Store) (symptom d : string) : nat :=
  (length (filter (λ r, r.1 = d ∧ r.2 = symptom) (has_symptom st))
   * length (filter (λ r, r.1 = d) (has_symptom st)))%nat.

Definition larger_count (a b : string * nat) : Prop := (b.2 ≤ a.2)%nat.

#[global] Instance larger_count_dec : RelDecision larger_count.
Proof. intros a b. unfold larger_count. apply _. Defined.

Definition disease_counts (st : Store) (symptom : string) : list (string * nat) :=
  merge_sort larger_count
    ((λ d, (d, symptom_count st symptom d)) <$>
     remove_dups (fst <$> filter (λ r, r.2 = symptom) (has_symptom st))).

(** [sum(probabilities.values())] *)
Definition py_sum (l : list Qc) : Qc := foldl Qcplus 0%Qc l.

(** [get_symptom_disease_probabilities], on a store that answers. *)
Definition get_symptom_disease_probabilities (st : Store) (symptom : string)
    : dict Qc :=
  let total_diseases := length (filter (λ r, r.2 = symptom) (has_symptom st)) in
  match total_diseases with
  | O => []
  | _ =>
      let probabilities :=
        foldl (λ d rec, dict_set d rec.1 (1 / Qc_of_Z (Z.of_nat rec.2 + 1))%Qc)
          [] (disease_counts st symptom) in
      let total_prob := py_sum (snd <$> probabilities) in
      if decide (0 < total_prob)%Qc
      then (λ kv, (kv.1, (kv.2 / total_prob)%Qc)) <$> probabilities
      else probabilities
  end.

(** A disease with the only symptom Fever beside Flu and COVID-19. *)
Definition three_diseases : Store :=
  graph_of (has_symptom flu_covid ++ [("Heat Stroke", "Fever")]).

(** A graph loaded with a lower-case symptom name. *)
Definition lower_case_graph : Store := graph_of [("Flu", "fever")].

(** The store after [upsert_special_case] recorded Rash, which the graph
    does not know. *)
Definition rash_recorded : Store := (upsert_special_case flu_covid ["rash"] 5).1.

(** A stand-in for the parser that knows one sentence. *)
Definition demo_extract (line : string) : list (string * string) :=
  if decide (line = "Flu has symptoms Fever") then [("Flu", "Fever")] else [].

(** ** Users *)

(** The [role] property of the Person nodes, by name. *)
Abbreviation Roles := (gmap string string).

(** [merge_person]: a node that is created gets the role; a node that is
    matched keeps the role it has, and gets the role when it has none. *)
Definition merge_person (st : Store) (roles : Roles) (name role : string)
    : Store * Roles :=
  let roles' :=
    if decide (name ∈ person_nodes st)
    then match roles !! name with
         | Some r => roles
         | None => <[name := role]> roles
         end
    else <[name := role]> roles in
  (log_audit
     {| symptom_nodes := symptom_nodes st;
        disease_nodes := disease_nodes st;
        person_nodes := merge (person_nodes st) name;
        has_symptom := has_symptom st;
        special_cases := special_cases st;
        case_has_symptom := case_has_symptom st;
        diagnosed_with := diagnosed_with st;
        audit := audit st |}
     "MERGE_PERSON" [("name", [name]); ("role", [role])],
   roles').

(** [create_user_cli]: [name] and [answer] are the two lines read; an
    empty answer stands for the role User. *)
Definition create_user_cli (st : Store) (roles : Roles) (name answer : string)
    : Store * Roles :=
  let role := if PyStr.truthy answer then answer else "User" in
  let '(st1, roles1) := merge_person st roles name role in
  (log_audit st1 "USER_CREATED" [("name", [name]); ("role", [role])], roles1).

(** Users created one after the other. *)
Definition create_users (st : Store) (roles : Roles) (users : list (string * string))
    : Store * Roles :=
  foldl (λ sr u, create_user_cli sr.1 sr.2 u.1 u.2) (st, roles) users.


(** * Part II: properties *)

(** ** The string methods *)

Example sym_key_test_1 : _sym_key ["Cough"; "Fever"] = "Cough|Fever".
Proof. vm_compute. reflexivity. Qed.

Example sym_key_test_2 : _sym_key ["Fever"; "cough"; "Fever"] = "Cough|Fever".
Proof. vm_compute. reflexivity. Qed.

Example title_words : PyStr.title "loss of  sMELL" = "Loss Of  Smell".
Proof. reflexivity. Qed.

Example strip_both : PyStr.strip "  leg pain  " = "leg pain".
Proof. reflexivity. Qed.

Module PyStrFacts.
Import PyStr.

Ltac by_ascii_cases c :=
  destruct c as [[] [] [] [] [] [] [] []]; vm_compute; reflexivity.

Lemma to_lower_idem c : to_lower (to_lower c) = to_lower c.
Proof. by_ascii_cases c. Qed.
Lemma to_upper_idem c : to_upper (to_upper c) = to_upper c.
Proof. by_ascii_cases c. Qed.
Lemma to_lower_upper c : to_lower (to_upper c) = to_lower c.
Proof. by_ascii_cases c. Qed.
Lemma to_upper_lower c : to_upper (to_lower c) = to_upper c.
Proof. by_ascii_cases c. Qed.
Lemma is_cased_lower c : is_cased (to_lower c) = is_cased c.
Proof. by_ascii_cases c. Qed.
Lemma is_cased_upper c : is_cased (to_upper c) = is_cased c.
Proof. by_ascii_cases c. Qed.
Lemma is_space_lower c : is_space (to_lower c) = is_space c.
Proof. by_ascii_cases c. Qed.
Lemma is_space_upper c : is_space (to_upper c) = is_space c.
Proof. by_ascii_cases c. Qed.
Lemma space_not_cased c : is_space c = true → is_cased c = false.
Proof. destruct c as [[] [] [] [] [] [] [] []]; vm_compute; congruence. Qed.

Lemma is_space_recase (b : bool) c :
  is_space (if b then to_lower c else to_upper c) = is_space c.
Proof. destruct b; [apply is_space_lower | apply is_space_upper]. Qed.

Lemma is_cased_recase (b : bool) c :
  is_cased (if b then to_lower c else to_upper c) = is_cased c.
Proof. destruct b; [apply is_cased_lower | apply is_cased_upper]. Qed.

(** *** [lower] against [strip] *)

Lemma lstrip_lower s : lstrip (lower s) = lower (lstrip s).
Proof.
  induction s as [|c s IH]; simpl; [done|].
  rewrite is_space_lower. by destruct (is_space c).
Qed.

Lemma lower_empty s : lower s = EmptyString ↔ s = EmptyString.
Proof. by destruct s. Qed.

Lemma rstrip_lower s : rstrip (lower s) = lower (rstrip s).
Proof.
  induction s as [|c s IH]; simpl; [done|].
  rewrite IH, is_space_lower.
  destruct (rstrip s); simpl; [by destruct (is_space c)|done].
Qed.

Lemma strip_lower s : strip (lower s) = lower (strip s).
Proof. unfold strip. by rewrite lstrip_lower, rstrip_lower. Qed.

Lemma truthy_lower s : truthy (lower s) = truthy s.
Proof. by destruct s. Qed.

(** *** [title] is blind to the case of its argument and idempotent *)

Lemma title_from_lower b s : title_from b (lower s) = title_from b s.
Proof.
  revert b. induction s as [|c s IH]; intros b; simpl; [done|].
  rewrite IH, is_cased_lower.
  destruct b; by rewrite ?to_lower_idem, ?to_upper_lower.
Qed.

Lemma title_lower s : title (lower s) = title s.
Proof. apply title_from_lower. Qed.

Lemma title_from_idem b s : title_from b (title_from b s) = title_from b s.
Proof.
  revert b. induction s as [|c s IH]; intros b; simpl; [done|].
  rewrite is_cased_recase, IH.
  destruct b; by rewrite ?to_lower_idem, ?to_upper_idem.
Qed.

Lemma truthy_title_from b s : truthy (title_from b s) = truthy s.
Proof. by destruct s. Qed.

(** *** [title] against [strip] *)

Lemma lstrip_title s : lstrip (title s) = title (lstrip s).
Proof.
  unfold title. induction s as [|c s IH]; simpl; [done|].
  rewrite is_space_upper. destruct (is_space c) eqn:Hc; simpl; [|done].
  by rewrite (space_not_cased c Hc).
Qed.

Lemma title_from_empty b s : title_from b s = EmptyString ↔ s = EmptyString.
Proof. by destruct s. Qed.

Lemma rstrip_title_from b s : rstrip (title_from b s) = title_from b (rstrip s).
Proof.
  revert b. induction s as [|c s IH]; intros b; simpl; [done|].
  rewrite IH, is_space_recase.
  destruct (rstrip s) as [|c' r]; simpl; [by destruct (is_space c)|done].
Qed.

Lemma strip_title s : strip (title s) = title (strip s).
Proof. unfold strip. rewrite lstrip_title. apply rstrip_title_from. Qed.

(** *** [strip] is idempotent *)

Lemma lstrip_idem s : lstrip (lstrip s) = lstrip s.
Proof.
  induction s as [|c s IH]; simpl; [done|].
  destruct (is_space c) eqn:Hc; [done|]. simpl. by rewrite Hc.
Qed.

Lemma rstrip_idem s : rstrip (rstrip s) = rstrip s.
Proof.
  induction s as [|c s IH]; simpl; [done|].
  destruct (rstrip s) as [|c' r] eqn:Hr.
  - destruct (is_space c) eqn:Hc; simpl; [done|]. by rewrite Hc.
  - simpl in *. by rewrite IH.
Qed.

Lemma lstrip_rstrip_fixed s : lstrip s = s → lstrip (rstrip s) = rstrip s.
Proof.
  destruct s as [|c s]; simpl; [done|].
  destruct (is_space c) eqn:Hc.
  - intros Heq. exfalso.
    assert (String.length (lstrip s) ≤ String.length s)%nat as Hle.
    { clear. induction s as [|d s IH]; simpl; [lia|].
      destruct (is_space d); simpl; lia. }
    rewrite Heq in Hle. simpl in Hle. lia.
  - intros _. destruct (rstrip s); simpl; by rewrite Hc.
Qed.

Lemma strip_idem s : strip (strip s) = strip s.
Proof.
  unfold strip.
  rewrite (lstrip_rstrip_fixed (lstrip s)) by apply lstrip_idem.
  apply rstrip_idem.
Qed.

End PyStrFacts.

(** ** The canonical key *)

Lemma normalize_idem s :
  PyStr.title (PyStr.strip (PyStr.title (PyStr.strip s))) = PyStr.title (PyStr.strip s).
Proof.
  rewrite PyStrFacts.strip_title, PyStrFacts.strip_idem.
  apply PyStrFacts.title_from_idem.
Qed.

Lemma normalize_truthy s :
  PyStr.truthy (PyStr.strip (PyStr.title (PyStr.strip s))) = PyStr.truthy (PyStr.strip s).
Proof.
  rewrite PyStrFacts.strip_title, PyStrFacts.strip_idem.
  apply PyStrFacts.truthy_title_from.
Qed.

Lemma elem_of_normalized x symptoms :
  x ∈ normalized symptoms ↔
  ∃ s, x = PyStr.title (PyStr.strip s) ∧ s ∈ symptoms ∧ PyStr.truthy (PyStr.strip s) = true.
Proof.
  unfold normalized. rewrite list_elem_of_fmap. split.
  - intros (s & -> & [Ht Hs]%list_elem_of_filter). exists s.
    split_and!; [done..|]. by apply Is_true_true.
  - intros (s & -> & Hs & Ht). exists s. split; [done|].
    apply list_elem_of_filter. split; [by apply Is_true_true|done].
Qed.

Lemma elem_of_normalized_set x symptoms :
  x ∈ normalized_set symptoms ↔ x ∈ normalized symptoms.
Proof. unfold normalized_set. apply elem_of_list_to_set. Qed.

Lemma elem_of_underlying x symptoms :
  x ∈ underlying symptoms ↔
  ∃ s, x = PyStr.lower (PyStr.strip s) ∧ s ∈ symptoms ∧ PyStr.truthy (PyStr.strip s) = true.
Proof.
  unfold underlying. rewrite elem_of_list_to_set, list_elem_of_fmap. split.
  - intros (s & -> & [Ht Hs]%list_elem_of_filter). exists s.
    split_and!; [done..|]. by apply Is_true_true.
  - intros (s & -> & Hs & Ht). exists s. split; [done|].
    apply list_elem_of_filter. split; [by apply Is_true_true|done].
Qed.

Lemma normalized_set_underlying symptoms :
  normalized_set symptoms = set_map PyStr.title (underlying symptoms).
Proof.
  apply set_eq. intros x.
  rewrite elem_of_normalized_set, elem_of_normalized, elem_of_map. split.
  - intros (s & -> & Hs & Ht). exists (PyStr.lower (PyStr.strip s)).
    split; [by rewrite PyStrFacts.title_lower|].
    apply elem_of_underlying. eauto.
  - intros (y & -> & (s & -> & Hs & Ht)%elem_of_underlying).
    exists s. by rewrite PyStrFacts.title_lower.
Qed.

Lemma sym_key_underlying l1 l2 :
  underlying l1 = underlying l2 → _sym_key l1 = _sym_key l2.
Proof. intros H. unfold _sym_key. by rewrite !normalized_set_underlying, H. Qed.

Lemma underlying_members l1 l2 :
  (∀ s, s ∈ l1 ↔ s ∈ l2) → underlying l1 = underlying l2.
Proof.
  intros H. apply set_eq. intros x. rewrite !elem_of_underlying.
  split; intros (s & ? & ? & ?); exists s; split_and!; try done; by apply H.
Qed.

Lemma nonblank_case_variant s t :
  case_variant s t →
  PyStr.truthy (PyStr.strip s) = PyStr.truthy (PyStr.strip t).
Proof.
  unfold case_variant. intros H.
  rewrite <-(PyStrFacts.truthy_lower (PyStr.strip s)), <-PyStrFacts.strip_lower, H.
  by rewrite PyStrFacts.strip_lower, PyStrFacts.truthy_lower.
Qed.

Lemma underlying_case_variants l1 l2 :
  Forall2 case_variant l1 l2 → underlying l1 = underlying l2.
Proof.
  intros H. unfold underlying. f_equal.
  induction H as [|s t l1 l2 Hst _ IH]; [done|].
  rewrite !filter_cons, (nonblank_case_variant s t Hst).
  destruct (decide _); [|done].
  rewrite !fmap_cons, IH. f_equal.
  unfold case_variant in Hst.
  by rewrite <-!PyStrFacts.strip_lower, Hst.
Qed.

Lemma elem_of_sorted x (X : gset string) : x ∈ sorted X ↔ x ∈ X.
Proof. unfold sorted. by rewrite merge_sort_Permutation, elem_of_elements. Qed.

Lemma normalized_set_sorted symptoms :
  normalized_set (sorted (normalized_set symptoms)) = normalized_set symptoms.
Proof.
  apply set_eq. intros x.
  rewrite !elem_of_normalized_set, elem_of_normalized. split.
  - intros (y & -> & Hy & Ht).
    apply elem_of_sorted, elem_of_normalized_set, elem_of_normalized in Hy
      as (s & -> & Hs & Hs').
    rewrite normalize_idem. apply elem_of_normalized. eauto.
  - intros Hx. exists x.
    pose proof Hx as (s & -> & Hs & Hs')%elem_of_normalized.
    rewrite normalize_idem, normalize_truthy. split_and!; [done| |done].
    apply elem_of_sorted, elem_of_normalized_set, elem_of_normalized. eauto.
Qed.

(** The key lists each symptom of the set once, in ascending order. *)
Lemma sorted_spec (X : gset string) :
  Sorted String.le (sorted X) ∧ NoDup (sorted X) ∧ ∀ x, x ∈ sorted X ↔ x ∈ X.
Proof.
  split_and!.
  - apply (Sorted_merge_sort String.le).
  - unfold sorted. rewrite merge_sort_Permutation.
    apply NoDup_elements.
  - intros x. apply elem_of_sorted.
Qed.

(** C4: [_sym_key] depends on the underlying symptom set only. Lists that
    are permutations of each other, that have the same members (so differ
    by repetitions), or that are entry-wise case variants get one key;
    computing the key of the canonical list again changes nothing; and
    the key of Cough, Fever in either spelling is "Cough|Fever". *)
Theorem sym_key_canonical :
  (∀ l1 l2, underlying l1 = underlying l2 → _sym_key l1 = _sym_key l2) ∧
  (∀ l1 l2, l1 ≡ₚ l2 → _sym_key l1 = _sym_key l2) ∧
  (∀ l1 l2, (∀ s, s ∈ l1 ↔ s ∈ l2) → _sym_key l1 = _sym_key l2) ∧
  (∀ l1 l2, Forall2 case_variant l1 l2 → _sym_key l1 = _sym_key l2) ∧
  (∀ l, _sym_key (sorted (normalized_set l)) = _sym_key l) ∧
  _sym_key ["Cough"; "Fever"] = "Cough|Fever" ∧
  _sym_key ["fever"; "COUGH"; "Fever"] = "Cough|Fever".
Proof.
  split_and!.
  - apply sym_key_underlying.
  - intros l1 l2 Hp. apply sym_key_underlying, underlying_members.
    intros s. by rewrite Hp.
  - intros l1 l2 Hm. by apply sym_key_underlying, underlying_members.
  - intros l1 l2 Hv. by apply sym_key_underlying, underlying_case_variants.
  - intros l. unfold _sym_key. by rewrite normalized_set_sorted.
  - vm_compute. reflexivity.
  - vm_compute. reflexivity.
Qed.

(** ** The match engine *)

Example match_all_flu_covid :
  diseases_by_symptoms flu_covid ["fever"; " cough "] None = ["Flu"; "COVID-19"].
Proof. vm_compute. reflexivity. Qed.

Example match_two_of_three :
  diseases_by_symptoms flu_covid ["Fever"; "Cough"; "Loss of smell"] (Some 2)
  = ["Flu"; "COVID-19"].
Proof. vm_compute. reflexivity. Qed.

Example match_all_of_three :
  diseases_by_symptoms flu_covid ["Fever"; "Cough"; "Loss of smell"] None
  = ["COVID-19"].
Proof. vm_compute. reflexivity. Qed.

(** *** What the grouped query computes *)

Lemma elem_of_found rel symptoms x s :
  s ∈ found_symptoms rel symptoms x ↔ (x, s) ∈ rel ∧ s ∈ symptoms.
Proof.
  unfold found_symptoms.
  rewrite elem_of_remove_dups, list_elem_of_fmap. split.
  - intros ([x' s'] & -> & [Hx [Hs Hr]%list_elem_of_filter]%list_elem_of_filter).
    simpl in *. by subst.
  - intros [Hr Hs]. exists (x, s). split; [done|].
    apply list_elem_of_filter. split; [done|].
    apply list_elem_of_filter. by split.
Qed.

Lemma elem_of_targets rel x s : s ∈ targets rel x ↔ (x, s) ∈ rel.
Proof.
  unfold targets. rewrite elem_of_list_to_set, list_elem_of_fmap. split.
  - intros ([x' s'] & -> & [Hx Hr]%list_elem_of_filter). simpl in *. by subst.
  - intros Hr. exists (x, s). split; [done|]. by apply list_elem_of_filter.
Qed.

Lemma found_as_set rel symptoms x :
  list_to_set (found_symptoms rel symptoms x)
  = targets rel x ∩ (list_to_set symptoms : gset string).
Proof.
  apply set_eq. intros s.
  rewrite elem_of_list_to_set, elem_of_found, elem_of_intersection,
    elem_of_targets, elem_of_list_to_set. done.
Qed.

Lemma length_found rel symptoms x :
  length (found_symptoms rel symptoms x)
  = size (targets rel x ∩ (list_to_set symptoms : gset string)).
Proof.
  rewrite <-found_as_set, size_list_to_set; [done|].
  apply NoDup_remove_dups.
Qed.

Lemma elem_of_collect_matches rel symptoms x f :
  (x, f) ∈ collect_matches rel symptoms ↔
  f = found_symptoms rel symptoms x ∧ ∃ s, (x, s) ∈ rel ∧ s ∈ symptoms.
Proof.
  unfold collect_matches. rewrite list_elem_of_fmap. split.
  - intros (x' & [= -> ->] & Hx). split; [done|].
    apply elem_of_remove_dups, list_elem_of_fmap in Hx
      as ([y s] & -> & [Hs Hr]%list_elem_of_filter).
    by exists s.
  - intros [-> (s & Hr & Hs)]. exists x. split; [done|].
    apply elem_of_remove_dups, list_elem_of_fmap. exists (x, s).
    split; [done|]. by apply list_elem_of_filter.
Qed.

Lemma collect_matches_keys_NoDup rel symptoms :
  NoDup (fst <$> collect_matches rel symptoms).
Proof.
  unfold collect_matches. rewrite <-list_fmap_compose.
  erewrite list_fmap_ext; [rewrite list_fmap_id; apply NoDup_remove_dups|].
  by intros.
Qed.

(** A start node is returned with threshold [needed >= 1] exactly when it
    has at least [needed] distinct targets among [symptoms]. *)
Lemma elem_of_matching rel symptoms (needed : Z) x :
  1 ≤ needed →
  x ∈ fst <$> filter (λ g, needed ≤ Z.of_nat (length g.2)) (collect_matches rel symptoms)
  ↔ needed ≤ Z.of_nat (size (targets rel x ∩ (list_to_set symptoms : gset string))).
Proof.
  intros Hn. rewrite list_elem_of_fmap. split.
  - intros ([x' f] & -> & [Hlen [-> _]%elem_of_collect_matches]%list_elem_of_filter).
    simpl in *. by rewrite <-length_found.
  - intros Hsz. exists (x, found_symptoms rel symptoms x). split; [done|].
    apply list_elem_of_filter. simpl. rewrite length_found. split; [done|].
    apply elem_of_collect_matches. split; [done|].
    destruct (set_choose_L (targets rel x ∩ (list_to_set symptoms : gset string)))
      as [s Hs].
    { intros Hempty. rewrite Hempty, size_empty in Hsz. lia. }
    apply elem_of_intersection in Hs as [Hr%elem_of_targets Hs%elem_of_list_to_set].
    eauto.
Qed.

(** *** Strict and thresholded matches *)

Lemma match_at_least st symptoms (m : Z) d :
  1 ≤ m →
  d ∈ diseases_by_symptoms st symptoms (Some m)
  ↔ m ≤ Z.of_nat (size (symptom_set st d ∩ normalized_set symptoms)).
Proof.
  intros Hm. unfold diseases_by_symptoms, symptom_set, normalized_set.
  destruct (normalized symptoms) as [|s l] eqn:Hn.
  - rewrite elem_of_nil. simpl.
    rewrite (right_absorb_L ∅ (∩)), size_empty. lia.
  - rewrite Z.max_r by done. by apply elem_of_matching.
Qed.

Lemma match_all st symptoms d :
  normalized symptoms ≠ [] →
  NoDup (normalized symptoms) →
  d ∈ diseases_by_symptoms st symptoms None
  ↔ normalized_set symptoms ⊆ symptom_set st d.
Proof.
  intros Hne Hnd. unfold diseases_by_symptoms, symptom_set, normalized_set.
  destruct (normalized symptoms) as [|s l] eqn:Hn; [done|].
  rewrite elem_of_matching by (simpl; lia).
  rewrite <-(size_list_to_set (C:=gset string) (s :: l)) by done.
  generalize (list_to_set (s :: l) : gset string).
  generalize (targets (has_symptom st) d).
  intros T N. split.
  - intros Hsz.
    assert (T ∩ N = N) as <-; [|apply intersection_subseteq_l].
    apply set_subseteq_size_eq; [apply intersection_subseteq_r|lia].
  - intros Hsub. replace (T ∩ N) with N; [lia|].
    symmetry. rewrite (comm_L (∩)). by apply subseteq_intersection_1_L.
Qed.

Lemma match_nothing_given st symptoms min_matches :
  normalized symptoms = [] → diseases_by_symptoms st symptoms min_matches = [].
Proof. unfold diseases_by_symptoms. by intros ->. Qed.

Lemma match_NoDup st symptoms min_matches :
  NoDup (diseases_by_symptoms st symptoms min_matches).
Proof.
  unfold diseases_by_symptoms.
  destruct (normalized symptoms) as [|s l]; [constructor|].
  eapply (NoDup_fmap_2_strong fst); [|apply NoDup_filter].
  - intros [x f] [y g] [_ [-> _]%elem_of_collect_matches]%list_elem_of_filter
      [_ [-> _]%elem_of_collect_matches]%list_elem_of_filter [=]. simpl in *.
    by subst.
  - eapply NoDup_fmap_1. apply collect_matches_keys_NoDup.
Qed.

(** C2, as the code has it: with a threshold [m >= 1] the result is
    exactly the diseases that share at least [m] distinct normalised
    symptoms with the input, each listed once. With no threshold, an
    input without a non-blank symptom gives the empty result, and an input
    whose normalised symptoms are pairwise distinct gives exactly the
    diseases whose symptom set contains all of them. *)
Theorem diseases_by_symptoms_spec st symptoms :
  (∀ m d, 1 ≤ m →
     d ∈ diseases_by_symptoms st symptoms (Some m)
     ↔ m ≤ Z.of_nat (size (symptom_set st d ∩ normalized_set symptoms))) ∧
  (∀ min_matches, NoDup (diseases_by_symptoms st symptoms min_matches)) ∧
  (normalized symptoms = [] → diseases_by_symptoms st symptoms None = []) ∧
  (normalized symptoms ≠ [] → NoDup (normalized symptoms) →
     ∀ d, d ∈ diseases_by_symptoms st symptoms None
          ↔ normalized_set symptoms ⊆ symptom_set st d).
Proof.
  split_and!.
  - intros m d. apply match_at_least.
  - apply match_NoDup.
  - apply match_nothing_given.
  - intros Hne Hnd d. by apply match_all.
Qed.

(** C2 as stated fails with no threshold: Flu's symptom set contains
    every symptom of the empty input, and every symptom of the input
    Fever, fever, yet Flu is returned for neither. *)
Lemma match_all_not_containment :
  (normalized_set [] ⊆ symptom_set flu_covid "Flu"
   ∧ "Flu" ∉ diseases_by_symptoms flu_covid [] None) ∧
  (normalized_set ["Fever"; "fever"] ⊆ symptom_set flu_covid "Flu"
   ∧ "Flu" ∉ diseases_by_symptoms flu_covid ["Fever"; "fever"] None).
Proof.
  split; (split; [compute_done | vm_compute; apply not_elem_of_nil]).
Qed.

(** C3, as the code has it: for an input with at least one non-blank
    symptom and pairwise distinct normalised symptoms, the strict match
    returns D iff every input symptom is in D's symptom set (the input is
    a subset of D's set); the match with threshold 1 returns D iff D's
    symptom set and the input have a symptom in common. *)
Theorem match_strict_and_wide st symptoms d :
  (normalized symptoms ≠ [] → NoDup (normalized symptoms) →
     (d ∈ diseases_by_symptoms st symptoms None
      ↔ normalized_set symptoms ⊆ symptom_set st d)) ∧
  (d ∈ diseases_by_symptoms st symptoms (Some 1)
   ↔ symptom_set st d ∩ normalized_set symptoms ≠ ∅).
Proof.
  split.
  - intros Hne Hnd. by apply match_all.
  - rewrite match_at_least by done.
    generalize (symptom_set st d ∩ normalized_set symptoms). intros X.
    pose proof (size_empty_iff X) as Hsz. rewrite leibniz_equiv_iff in Hsz.
    split; [intros ? ?%Hsz; lia|].
    intros Hne. destruct (size X) as [|n]; [by destruct Hne; apply Hsz|lia].
Qed.

(** C3 as stated fails: Flu is returned by the strict match for Fever
    although Flu's symptom set is not a subset of the input; and for the
    input Fever, Cough, Headache Flu's symptom set is a subset of the
    input although Flu is not returned. *)
Lemma match_strict_not_reverse_containment :
  ("Flu" ∈ diseases_by_symptoms flu_covid ["Fever"] None
   ∧ ¬ (symptom_set flu_covid "Flu" ⊆ normalized_set ["Fever"])) ∧
  (("Flu" ∉ diseases_by_symptoms flu_covid ["Fever"; "Cough"; "Headache"] None)
   ∧ symptom_set flu_covid "Flu" ⊆ normalized_set ["Fever"; "Cough"; "Headache"]).
Proof.
  split; split; compute_done.
Qed.

(** ** The special-case registry *)

Example upsert_then_find :
  find_special_case
    (upsert_special_case_with_patient empty_store ["fever"; "Rash "] "Ann" 1000).1
    ["Rash"; "Fever"]
  = Some (created_with_patient ["Fever"; "Rash"] "Ann" 1000)
  ∨ find_special_case
    (upsert_special_case_with_patient empty_store ["fever"; "Rash "] "Ann" 1000).1
    ["Rash"; "Fever"]
  = Some (created_with_patient ["Rash"; "Fever"] "Ann" 1000).
Proof. vm_compute. auto. Qed.

(** *** Similar special cases *)

#[global] Instance more_matched_total : Total more_matched.
Proof. intros a b. unfold more_matched. lia. Qed.

Lemma py_int_floor (x : Qc) : Z.max 1 (py_int x) = Z.max 1 (Qfloor x).
Proof.
  unfold py_int. destruct x as [[n d] Hc]. simpl.
  destruct (Z.le_gt_cases 0 n) as [Hn|Hn].
  - by rewrite Z.quot_div_nonneg by lia.
  - assert (n ÷ Z.pos d ≤ 0).
    { apply Z.quot_le_upper_bound; lia. }
    assert (n / Z.pos d < 0).
    { apply Z.div_lt_upper_bound; lia. }
    lia.
Qed.

Lemma length_found_elements rel (X : gset string) k :
  length (found_symptoms rel (elements X) k) = size (targets rel k ∩ X).
Proof. by rewrite length_found, list_to_set_elements_L. Qed.

Lemma found_elements_as_set rel (X : gset string) k :
  list_to_set (found_symptoms rel (elements X) k) = targets rel k ∩ X.
Proof. by rewrite found_as_set, list_to_set_elements_L. Qed.

Lemma find_similar_rows st symptoms t r :
  r ∈ find_similar_special_cases st symptoms t ↔
  r = {| sym_key := sym_key r; properties := special_cases st !! sym_key r;
         matched_symptoms :=
           found_symptoms (case_has_symptom st) (elements (normalized_set symptoms))
             (sym_key r) |} ∧
  Z.max 1 (Qfloor (Qc_of_Z (Z.of_nat (size (normalized_set symptoms))) * t)%Qc)
  ≤ Z.of_nat (size (shared_symptoms st symptoms (sym_key r))).
Proof.
  unfold find_similar_special_cases, shared_symptoms.
  rewrite merge_sort_Permutation, list_elem_of_fmap, py_int_floor.
  change (length (elements (normalized_set symptoms)))
    with (size (normalized_set symptoms)).
  set (need := Z.max 1 _).
  rewrite <-length_found_elements. split.
  - intros ([k f] & -> & [Hlen [-> _]%elem_of_collect_matches]%list_elem_of_filter).
    simpl in *. done.
  - destruct r as [k p m]. simpl. intros [[= Hp Hm] Hlen].
    exists (k, m). simpl. split; [by rewrite <-Hp|].
    rewrite Hm. apply list_elem_of_filter. split; [done|].
    apply elem_of_collect_matches. split; [done|].
    assert (1 ≤ need) as H1 by (unfold need; lia).
    destruct (found_symptoms (case_has_symptom st)
                (elements (normalized_set symptoms)) k) as [|s l] eqn:Hf.
    { simpl in Hlen. lia. }
    assert (s ∈ found_symptoms (case_has_symptom st)
                (elements (normalized_set symptoms)) k) as Hs.
    { rewrite Hf. apply list_elem_of_here. }
    apply elem_of_found in Hs. eauto.
Qed.

Lemma find_similar_keys_NoDup st symptoms t :
  NoDup (sym_key <$> find_similar_special_cases st symptoms t).
Proof.
  unfold find_similar_special_cases.
  rewrite merge_sort_Permutation, <-list_fmap_compose.
  eapply (NoDup_fmap_2_strong _); [|apply NoDup_filter].
  - intros [x f] [y g] [_ [-> _]%elem_of_collect_matches]%list_elem_of_filter
      [_ [-> _]%elem_of_collect_matches]%list_elem_of_filter. simpl.
    by intros ->.
  - eapply NoDup_fmap_1. apply collect_matches_keys_NoDup.
Qed.

(** C6, as the code has it: the special cases returned are exactly those
    that share at least max(1, floor(t * n)) symptoms with the input,
    where n is the number of distinct normalised input symptoms; each is
    returned once, with its properties and the shared symptoms as its
    matched symptoms; and the rows are in descending order of the number
    of matched symptoms. *)
Theorem find_similar_special_cases_spec st symptoms (t : Qc) :
  let result := find_similar_special_cases st symptoms t in
  let n := Z.of_nat (size (normalized_set symptoms)) in
  let needed := Z.max 1 (Qfloor (Qc_of_Z n * t)%Qc) in
  (∀ k, k ∈ sym_key <$> result
        ↔ needed ≤ Z.of_nat (size (shared_symptoms st symptoms k))) ∧
  (∀ r, r ∈ result →
        properties r = special_cases st !! sym_key r ∧
        NoDup (matched_symptoms r) ∧
        list_to_set (matched_symptoms r) = shared_symptoms st symptoms (sym_key r)) ∧
  NoDup (sym_key <$> result) ∧
  Sorted (λ a b, (size (shared_symptoms st symptoms (sym_key b))
                  ≤ size (shared_symptoms st symptoms (sym_key a)))%nat) result.
Proof.
  intros result n needed.
  assert (∀ r, r ∈ result →
            length (matched_symptoms r)
            = size (shared_symptoms st symptoms (sym_key r))) as Hlen.
  { intros r [-> _]%find_similar_rows. simpl. apply length_found_elements. }
  split_and!.
  - intros k. rewrite list_elem_of_fmap. split.
    + by intros (r & -> & [_ Hr]%find_similar_rows).
    + intros Hk.
      exists {| sym_key := k; properties := special_cases st !! k;
                matched_symptoms :=
                  found_symptoms (case_has_symptom st)
                    (elements (normalized_set symptoms)) k |}.
      split; [done|]. by apply find_similar_rows.
  - intros r [-> _]%find_similar_rows. simpl. split_and!; [done| |].
    + apply NoDup_remove_dups.
    + apply found_elements_as_set.
  - apply find_similar_keys_NoDup.
  - assert (Sorted more_matched result) as Hs
      by apply (Sorted_merge_sort more_matched).
    assert (Forall (λ r, r ∈ result) result) as Hall
      by (apply Forall_forall; auto).
    revert Hs Hall. generalize result at 1 3 4. intros l Hs.
    induction Hs as [|a l Hs IH Hhd]; intros Hall; [constructor|].
    apply Forall_cons in Hall as [Ha Hall]. constructor; [by apply IH|].
    destruct Hhd as [|b l' Hab]; constructor.
    apply Forall_cons in Hall as [Hb _].
    unfold more_matched in Hab. by rewrite <-!Hlen.
Qed.

(** C6 as stated fails: for three input symptoms and threshold 0.5 the
    special case Fever, which shares one symptom with the input, is
    returned, although ceil(0.5 * 3) is 2. *)
Lemma find_similar_not_ceiling :
  "Fever" ∈ sym_key <$>
    find_similar_special_cases one_fever_case ["Fever"; "Cough"; "Rash"] half ∧
  size (normalized_set ["Fever"; "Cough"; "Rash"]) = 3%nat ∧
  size (shared_symptoms one_fever_case ["Fever"; "Cough"; "Rash"] "Fever") = 1%nat ∧
  Z.max 1 (Qceiling (Qc_of_Z 3 * half)%Qc) = 2.
Proof. split_and!; compute_done. Qed.

(** *** Upsert *)

Lemma upsert_lookup st symptoms p ts :
  special_cases (upsert_special_case_with_patient st symptoms p ts).1
    !! _sym_key symptoms
  = Some match special_cases st !! _sym_key symptoms with
         | None => created_with_patient (elements (normalized_set symptoms)) p ts
         | Some c0 => matched_with_patient c0 p ts
         end.
Proof. unfold upsert_special_case_with_patient. simpl. apply lookup_insert_eq. Qed.

Lemma upsert_lookup_ne st symptoms p ts k :
  k ≠ _sym_key symptoms →
  special_cases (upsert_special_case_with_patient st symptoms p ts).1 !! k
  = special_cases st !! k.
Proof.
  intros Hk. unfold upsert_special_case_with_patient. simpl.
  by apply lookup_insert_ne.
Qed.

Lemma upsert_all_snoc st calls c :
  upsert_all st (calls ++ [c])
  = (upsert_special_case_with_patient (upsert_all st calls) c.1.1 c.1.2 c.2).1.
Proof. unfold upsert_all. by rewrite foldl_app. Qed.

(** The bundle after [n >= 1] upserts of one key by alternating patients
    [p1], [p2], starting from a store without it. *)
Lemma upsert_alternating st key p1 p2 calls :
  special_cases st !! key = None →
  p1 ≠ p2 →
  calls ≠ [] →
  (∀ i c, calls !! i = Some c →
          _sym_key c.1.1 = key ∧ c.1.2 = if Nat.even i then p1 else p2) →
  ∃ c, special_cases (upsert_all st calls) !! key = Some c ∧
       hits c = Z.of_nat (length calls) ∧
       Some (first_seen c) = snd <$> head calls ∧
       patients c = Some (if decide (length calls = 1%nat) then [p1] else [p1; p2]).
Proof.
  intros Hnone Hp. induction calls as [|c calls IH] using rev_ind; [done|].
  intros _ Hcalls.
  destruct (Hcalls (length calls) c) as [Hkey Hpat].
  { by rewrite lookup_app_r, Nat.sub_diag by lia. }
  rewrite upsert_all_snoc, <-Hkey, upsert_lookup, Hkey.
  destruct calls as [|c0 calls].
  - simpl in *. rewrite Hnone. eexists. split; [done|].
    simpl. by rewrite Hpat.
  - destruct IH as (b & -> & Hhits & Hfirst & Hpats); [done| |].
    { intros i c' Hi. apply Hcalls. by apply lookup_app_l_Some. }
    eexists. split; [done|]. simpl. rewrite Hpats.
    rewrite length_app. simpl length in *. split_and!; [lia|exact Hfirst|].
    rewrite Hpat. simpl in Hcalls.
    destruct calls as [|c1 calls]; simpl.
    + destruct (decide (p2 ∈ [p1])) as [Hin%list_elem_of_singleton|]; [congruence|done].
    + destruct (decide (_ ∈ [p1; p2])) as [|Hin]; [done|]. exfalso. apply Hin.
      destruct (Nat.even (length calls));
        [apply list_elem_of_here | apply list_elem_of_further, list_elem_of_here].
Qed.

(** C5: an upsert on an absent key creates the bundle with hit count 1,
    [first_seen] the current time and the patient as the only member; an
    upsert on a present key increments the hit count, sets [last_seen],
    keeps [first_seen] and appends the patient to the patient list unless
    the name is a member already; bundles under other keys are untouched,
    so under any upsert the hit count of a bundle does not decrease, its
    [first_seen] stays and its patient list only grows;
    and [n >= 2] upserts of one symptom set by two alternating patients,
    from a store without the bundle, give hit count [n] and the two
    patients, each once. *)
Theorem upsert_monotone :
  (∀ st symptoms p ts,
     special_cases st !! _sym_key symptoms = None →
     ∃ c, special_cases (upsert_special_case_with_patient st symptoms p ts).1
            !! _sym_key symptoms = Some c ∧
          hits c = 1 ∧ first_seen c = ts ∧ patients c = Some [p]) ∧
  (∀ st symptoms p ts c,
     special_cases st !! _sym_key symptoms = Some c →
     ∃ c', special_cases (upsert_special_case_with_patient st symptoms p ts).1
             !! _sym_key symptoms = Some c' ∧
           hits c' = hits c + 1 ∧
           last_seen c' = Some ts ∧
           first_seen c' = first_seen c ∧
           (∀ ps, patients c = Some ps →
                  patients c' = Some (if decide (p ∈ ps) then ps else ps ++ [p]))) ∧
  (∀ st symptoms p ts k,
     k ≠ _sym_key symptoms →
     special_cases (upsert_special_case_with_patient st symptoms p ts).1 !! k
     = special_cases st !! k) ∧
  (∀ st symptoms p ts k c,
     special_cases st !! k = Some c →
     ∃ c', special_cases (upsert_special_case_with_patient st symptoms p ts).1 !! k
           = Some c' ∧
           hits c ≤ hits c' ∧
           first_seen c' = first_seen c ∧
           (∀ ps, patients c = Some ps →
                  ∃ ps', patients c' = Some ps' ∧ ps ⊆ ps')) ∧
  (∀ st key p1 p2 calls,
     special_cases st !! key = None →
     p1 ≠ p2 →
     (2 ≤ length calls)%nat →
     (∀ i c, calls !! i = Some c →
             _sym_key c.1.1 = key ∧ c.1.2 = if Nat.even i then p1 else p2) →
     ∃ c, special_cases (upsert_all st calls) !! key = Some c ∧
          hits c = Z.of_nat (length calls) ∧
          Some (first_seen c) = snd <$> head calls ∧
          patients c = Some [p1; p2] ∧ NoDup [p1; p2] ∧ length [p1; p2] = 2%nat).
Proof.
  split_and!.
  - intros st symptoms p ts Hnone. rewrite upsert_lookup, Hnone.
    by eexists.
  - intros st symptoms p ts c Hc. rewrite upsert_lookup, Hc.
    eexists. split; [done|]. simpl. split_and!; try done.
    by intros ps ->.
  - intros *. apply upsert_lookup_ne.
  - intros st symptoms p ts k c Hc.
    destruct (decide (k = _sym_key symptoms)) as [->|Hk].
    + rewrite upsert_lookup, Hc. eexists. split; [done|]. simpl.
      split_and!; [lia|done|]. intros ps ->. eexists. split; [done|].
      case_decide; [done|]. by apply list_subseteq_app_l.
    + rewrite upsert_lookup_ne by done. exists c. split_and!; [done|lia|done|].
      intros ps ->. by exists ps.
  - intros st key p1 p2 calls Hnone Hp Hlen Hcalls.
    destruct (upsert_alternating st key p1 p2 calls) as (c & Hc & Hh & Hf & Hps);
      try done.
    { intros ->. simpl in Hlen. lia. }
    exists c. split_and!; try done.
    + rewrite Hps. case_decide; [lia|done].
    + apply NoDup_cons. split; [|apply NoDup_singleton].
      intros Hin%list_elem_of_singleton. congruence.
Qed.

(** Four upserts of Cough, Fever in changing spellings by Ann and Bob in
    turn, on the empty store. *)
Lemma upsert_monotone_witness :
  ∃ c, special_cases
         (upsert_all empty_store
            [(["Cough"; "Fever"], "Ann", 10); (["fever"; "cough"], "Bob", 20);
             ([" Fever"; "COUGH"; "fever"], "Ann", 30);
             (["cough "; "Fever"], "Bob", 40)])
         !! "Cough|Fever" = Some c ∧
       hits c = 4 ∧ Some (first_seen c) = Some 10 ∧
       patients c = Some ["Ann"; "Bob"] ∧ NoDup ["Ann"; "Bob"] ∧
       length ["Ann"; "Bob"] = 2%nat.
Proof.
  apply (proj2 (proj2 (proj2 (proj2 upsert_monotone)))
           empty_store "Cough|Fever" "Ann" "Bob").
  - reflexivity.
  - discriminate.
  - simpl. lia.
  - intros [|[|[|[|i]]]] c Hc; simpl in Hc; inversion Hc; subst; simpl;
      split; try reflexivity; vm_compute; reflexivity.
Defined.

(** ** The Bayesian network *)

Example bits_3_5 : bits 3 5 = [1; 0; 1].
Proof. reflexivity. Qed.

Example fetch_flu_covid :
  _fetch_graph flu_covid
  = [("Flu", ["Fever"; "Cough"]); ("COVID-19", ["Fever"; "Cough"; "Loss Of Smell"])].
Proof. vm_compute. reflexivity. Qed.

Example flu_row_true :
  row_true MIN_PROB_default ∅ "Flu" ["Fever"; "Cough"]
  = [Q2Qc (1 # 100); Q2Qc (8 # 10); Q2Qc (8 # 10); Q2Qc (8 # 10)].
Proof. compute_done. Qed.

Example flu_row_true_override :
  row_true MIN_PROB_default
    {[ "Flu" := {[ "base_prob" := Q2Qc (1 # 10); "Cough" := Q2Qc (3 # 10) ]} ]}
    "Flu" ["Fever"; "Cough"]
  = [Q2Qc (1 # 10); Q2Qc (3 # 10); Q2Qc (8 # 10); Q2Qc (8 # 10)].
Proof. compute_done. Qed.

(** *** Rows and bit patterns *)

Lemma bit_of_row (i : Z) (j : nat) :
  Z.land (Z.shiftr i (Z.of_nat j)) 1 = Z.b2z (Z.testbit i (Z.of_nat j)).
Proof.
  rewrite Z.testbit_spec' by lia.
  rewrite Z.shiftr_div_pow2 by lia.
  change 1 with (Z.ones 1) at 1. by rewrite Z.land_ones by lia.
Qed.

Lemma bits_combination k i : bits k i = Z.b2z <$> combination k i.
Proof.
  unfold bits, combination. rewrite <-list_fmap_compose.
  apply list_fmap_ext. intros _ j _. apply bit_of_row.
Qed.

Lemma length_combination k i : length (combination k i) = k.
Proof. unfold combination. by rewrite length_fmap, length_reverse, length_seq. Qed.

Lemma combination_S k i :
  combination (S k) i = Z.testbit i (Z.of_nat k) :: combination k i.
Proof.
  unfold combination. rewrite seq_S, reverse_app. simpl. done.
Qed.

Lemma combination_mod k i : combination k (i `mod` 2 ^ Z.of_nat k) = combination k i.
Proof.
  unfold combination. apply list_fmap_ext. intros n j Hj.
  apply Z.mod_pow2_bits_low.
  apply list_elem_of_lookup_2, elem_of_reverse, elem_of_seq in Hj. lia.
Qed.

Lemma b2z_fmap_inj (l1 l2 : list bool) : Z.b2z <$> l1 = Z.b2z <$> l2 → l1 = l2.
Proof.
  revert l2. induction l1 as [|a l1 IH]; intros [|b l2] [=]; [done|].
  f_equal; [by destruct a, b|by apply IH].
Qed.

Lemma combination_inj k i i' :
  0 ≤ i < 2 ^ Z.of_nat k → 0 ≤ i' < 2 ^ Z.of_nat k →
  combination k i = combination k i' → i = i'.
Proof.
  revert i i'. induction k as [|k IH]; intros i i' Hi Hi'.
  { simpl in *. lia. }
  rewrite !combination_S. intros [= Hbit Hrest].
  rewrite Nat2Z.inj_succ, Z.pow_succ_r in Hi, Hi' by lia.
  pose proof (Z.pow_pos_nonneg 2 (Z.of_nat k)) as Hpos.
  assert (i `mod` 2 ^ Z.of_nat k = i' `mod` 2 ^ Z.of_nat k) as Hmod.
  { apply IH; [apply Z.mod_pos_bound; lia..|].
    by rewrite !combination_mod. }
  assert (i `div` 2 ^ Z.of_nat k = i' `div` 2 ^ Z.of_nat k) as Hdiv.
  { apply (f_equal Z.b2z) in Hbit. rewrite !Z.testbit_spec' in Hbit by lia.
    assert (0 ≤ i `div` 2 ^ Z.of_nat k < 2).
    { split; [apply Z.div_pos; lia|apply Z.div_lt_upper_bound; lia]. }
    assert (0 ≤ i' `div` 2 ^ Z.of_nat k < 2).
    { split; [apply Z.div_pos; lia|apply Z.div_lt_upper_bound; lia]. }
    rewrite !Z.mod_small in Hbit by lia. done. }
  rewrite (Z.div_mod i (2 ^ Z.of_nat k)), (Z.div_mod i' (2 ^ Z.of_nat k)) by lia.
  by rewrite Hmod, Hdiv.
Qed.

Lemma row_index_range combo : 0 ≤ row_index combo < 2 ^ Z.of_nat (length combo).
Proof.
  induction combo as [|b rest IH]; simpl length; simpl row_index; [simpl; lia|].
  rewrite Nat2Z.inj_succ, Z.pow_succ_r by lia.
  destruct b; simpl Z.b2z; lia.
Qed.

Lemma combination_row_index combo :
  combination (length combo) (row_index combo) = combo.
Proof.
  induction combo as [|b rest IH]; [done|].
  simpl length. rewrite combination_S. simpl row_index.
  pose proof (row_index_range rest) as Hr.
  pose proof (Z.pow_pos_nonneg 2 (Z.of_nat (length rest))) as Hpos.
  f_equal.
  - apply Z.b2z_inj. rewrite Z.testbit_spec' by lia.
    rewrite Z.div_add_l by lia. rewrite (Z.div_small (row_index rest)) by lia.
    destruct b; reflexivity.
  - rewrite <-combination_mod.
    rewrite Z.add_comm, Z.mod_add by lia. rewrite Z.mod_small by lia. done.
Qed.

(** *** The maximum rule *)

Lemma py_max_l a b : (a ≤ py_max a b)%Qc.
Proof. unfold py_max. case_decide; [by apply Qclt_le_weak|apply Qcle_refl]. Qed.

Lemma py_max_r a b : (b ≤ py_max a b)%Qc.
Proof. unfold py_max. case_decide; [apply Qcle_refl|by apply Qcnot_lt_le]. Qed.

Lemma py_max_cases a b : py_max a b = a ∨ py_max a b = b.
Proof. unfold py_max. case_decide; auto. Qed.

Lemma p_true_max_rule MIN_PROB probs dis (syms : list string) (bs : list Z) :
  let p := p_true_of MIN_PROB probs dis syms bs in
  let base := prob_get probs dis "base_prob" MIN_PROB in
  (base ≤ p)%Qc ∧
  (∀ s, (1, s) ∈ zip bs syms → (prob_get probs dis s SYMPTOM_PROB ≤ p)%Qc) ∧
  (p = base ∨ ∃ s, (1, s) ∈ zip bs syms ∧ p = prob_get probs dis s SYMPTOM_PROB).
Proof.
  unfold p_true_of. generalize (prob_get probs dis "base_prob" MIN_PROB).
  generalize (zip bs syms). intros l.
  induction l as [|[b s] l IH]; intros p0; simpl.
  { split_and!; [apply Qcle_refl| |by left].
    by intros s ?%elem_of_nil. }
  case_decide as Hb; simpl in Hb.
  - subst b. destruct (IH (py_max p0 (prob_get probs dis s SYMPTOM_PROB)))
      as (Hle & Hall & Hex).
    split_and!.
    + eapply Qcle_trans; [apply py_max_l|apply Hle].
    + intros s' [[= ->]|Hin]%elem_of_cons; [|by apply Hall].
      eapply Qcle_trans; [apply py_max_r|apply Hle].
    + destruct Hex as [->|(s' & Hin & ->)].
      * destruct (py_max_cases p0 (prob_get probs dis s SYMPTOM_PROB)) as [->| ->];
          [by left|right]. exists s. split; [apply list_elem_of_here|done].
      * right. exists s'. split; [by apply list_elem_of_further|done].
  - destruct (IH p0) as (Hle & Hall & Hex). split_and!; [done| |].
    + intros s' [[= ? ?]|Hin]%elem_of_cons; [congruence|by apply Hall].
    + destruct Hex as [->|(s' & Hin & ->)]; [by left|right].
      exists s'. split; [by apply list_elem_of_further|done].
Qed.

Lemma present_in_zip (combo : list bool) (syms : list string) s :
  (1, s) ∈ zip (Z.b2z <$> combo) syms ↔
  ∃ j : nat, syms !! j = Some s ∧ combo !! j = Some true.
Proof.
  rewrite elem_of_lookup_zip_with. split.
  - intros (j & b & s' & [= <- <-] & Hb & Hs). exists j. split; [done|].
    rewrite list_lookup_fmap in Hb.
    destruct (combo !! j) as [[]|]; simpl in Hb; by inversion Hb.
  - intros (j & Hs & Hc). exists j, 1, s. split_and!; [done| |done].
    by rewrite list_lookup_fmap, Hc.
Qed.

Lemma row_true_lookup MIN_PROB probs dis syms (i : Z) :
  0 ≤ i < 2 ^ Z.of_nat (length syms) →
  row_true MIN_PROB probs dis syms !! Z.to_nat i
  = Some (p_true_of MIN_PROB probs dis syms (bits (length syms) i)).
Proof.
  intros Hi. unfold row_true.
  rewrite list_lookup_fmap, lookup_seqZ_lt by lia. simpl.
  do 3 f_equal. lia.
Qed.

Lemma row_false_lookup MIN_PROB probs dis syms (i : Z) :
  0 ≤ i < 2 ^ Z.of_nat (length syms) →
  row_false MIN_PROB probs dis syms !! Z.to_nat i
  = Some (1 - p_true_of MIN_PROB probs dis syms (bits (length syms) i))%Qc.
Proof.
  intros Hi. unfold row_false.
  rewrite list_lookup_fmap, lookup_seqZ_lt by lia. simpl.
  do 4 f_equal. lia.
Qed.

Lemma length_rows MIN_PROB probs dis syms :
  Z.of_nat (length (row_true MIN_PROB probs dis syms)) = 2 ^ Z.of_nat (length syms) ∧
  Z.of_nat (length (row_false MIN_PROB probs dis syms)) = 2 ^ Z.of_nat (length syms).
Proof.
  unfold row_true, row_false. rewrite !length_fmap, !length_seqZ.
  pose proof (Z.pow_pos_nonneg 2 (Z.of_nat (length syms))). lia.
Qed.

Lemma disease_cpd_compiled MIN_PROB probs st dis syms :
  (dis, syms) ∈ _fetch_graph st →
  disease_cpd MIN_PROB probs dis syms
  ∈ cpds (build_model MIN_PROB probs None st).1.
Proof.
  intros Hin. simpl. apply elem_of_app. right.
  apply list_elem_of_fmap. by exists (dis, syms).
Qed.

Lemma prob_get_lookup (probs : Probs) dis key fallback :
  prob_get probs dis key fallback
  = match match probs !! dis with Some table => table !! key | None => None end with
    | Some v => v
    | None => fallback
    end.
Proof.
  unfold prob_get. destruct (probs !! dis) as [table|]; simpl; [done|].
  by rewrite lookup_empty.
Qed.

(** C1: for a disease [dis] with symptoms [syms] in the graph, the model
    built on an empty cache has the CPD of [dis] over [syms] with a
    false row and a true row of [2 ^ length syms] entries; every
    present/absent combination of the symptoms is the bit pattern of
    exactly one row; and in each row the true entry [p] is the maximum
    of the base probability and the probabilities of the symptoms
    present in the row's combination (it bounds them all and is one of
    them), the false entry is [1 - p], and the two add up to 1. The base
    probability is the entry [base_prob] of the disease in the table of
    overrides when there is one and [MIN_PROB] otherwise; the
    probability of a symptom is its entry for the disease in the table
    when there is one and 0.8 otherwise. *)
Theorem build_model_cpt MIN_PROB (probs : Probs) st dis syms :
  (dis, syms) ∈ _fetch_graph st →
  let k := length syms in
  let override key :=
    match probs !! dis with Some table => table !! key | None => None end in
  let base := match override "base_prob" with Some v => v | None => MIN_PROB end in
  let given s := match override s with Some v => v | None => Q2Qc (8 # 10) end in
  ∃ rf rt,
    {| variable := dis; variable_card := 2; values := [rf; rt];
       evidence := syms; evidence_card := replicate k 2 |}
    ∈ cpds (build_model MIN_PROB probs None st).1 ∧
    Z.of_nat (length rt) = 2 ^ Z.of_nat k ∧
    Z.of_nat (length rf) = 2 ^ Z.of_nat k ∧
    (∀ combo : list bool, length combo = k →
       ∃ i, 0 ≤ i < 2 ^ Z.of_nat k ∧ bits k i = Z.b2z <$> combo ∧
            ∀ i', 0 ≤ i' < 2 ^ Z.of_nat k → bits k i' = Z.b2z <$> combo → i' = i) ∧
    (∀ i, 0 ≤ i < 2 ^ Z.of_nat k →
       ∃ combo p,
         length combo = k ∧ bits k i = Z.b2z <$> combo ∧
         rt !! Z.to_nat i = Some p ∧
         rf !! Z.to_nat i = Some (1 - p)%Qc ∧
         (p + (1 - p) = 1)%Qc ∧
         (base ≤ p)%Qc ∧
         (∀ (j : nat) s, syms !! j = Some s → combo !! j = Some true →
                         (given s ≤ p)%Qc) ∧
         (p = base ∨
          ∃ (j : nat) s, syms !! j = Some s ∧ combo !! j = Some true ∧ p = given s)).
Proof.
  intros Hin k override base given.
  assert (base = prob_get probs dis "base_prob" MIN_PROB) as Hbase_eq
    by (symmetry; apply prob_get_lookup).
  assert (∀ s, given s = prob_get probs dis s SYMPTOM_PROB) as Hgiven_eq
    by (intros s; symmetry; apply prob_get_lookup).
  exists (row_false MIN_PROB probs dis syms), (row_true MIN_PROB probs dis syms).
  split; [by apply disease_cpd_compiled|].
  destruct (length_rows MIN_PROB probs dis syms) as [Ht Hf].
  split_and!; [done..| |].
  - intros combo Hlen. exists (row_index combo).
    pose proof (row_index_range combo) as Hr. rewrite Hlen in Hr.
    split_and!; [lia..| |].
    + by rewrite bits_combination, <-Hlen, combination_row_index.
    + intros i' Hi' Hbits. apply (combination_inj k); [done..|].
      rewrite bits_combination in Hbits. apply b2z_fmap_inj in Hbits.
      by rewrite Hbits, <-Hlen, combination_row_index.
  - intros i Hi.
    exists (combination k i), (p_true_of MIN_PROB probs dis syms (bits k i)).
    destruct (p_true_max_rule MIN_PROB probs dis syms (bits k i))
      as (Hbase & Hall & Hex).
    rewrite Hbase_eq. setoid_rewrite Hgiven_eq.
    split_and!.
    + apply length_combination.
    + apply bits_combination.
    + by apply row_true_lookup.
    + by apply row_false_lookup.
    + ring.
    + done.
    + intros j s Hs Hc. apply Hall. rewrite bits_combination.
      apply present_in_zip. eauto.
    + destruct Hex as [?|(s & Hs & ?)]; [by left|right].
      rewrite bits_combination in Hs. apply present_in_zip in Hs as (j & ? & ?).
      eauto.
Qed.

(** Flu in the two-disease graph, with the default floor and the
    overrides 0.1 for the base probability and 0.3 for Cough: the true
    row is 0.1, 0.3, 0.8, 0.8. *)
Lemma build_model_cpt_witness :
  let MIN_PROB := MIN_PROB_default in
  let probs : Probs :=
    {[ "Flu" := {[ "base_prob" := Q2Qc (1 # 10); "Cough" := Q2Qc (3 # 10) ]} ]} in
  let st := flu_covid in
  let dis := "Flu" in
  let syms := ["Fever"; "Cough"] in
  let k := length syms in
  let override key :=
    match probs !! dis with Some table => table !! key | None => None end in
  let base := match override "base_prob" with Some v => v | None => MIN_PROB end in
  let given s := match override s with Some v => v | None => Q2Qc (8 # 10) end in
  ∃ rf rt,
    {| variable := dis; variable_card := 2; values := [rf; rt];
       evidence := syms; evidence_card := replicate k 2 |}
    ∈ cpds (build_model MIN_PROB probs None st).1 ∧
    Z.of_nat (length rt) = 2 ^ Z.of_nat k ∧
    Z.of_nat (length rf) = 2 ^ Z.of_nat k ∧
    (∀ combo : list bool, length combo = k →
       ∃ i, 0 ≤ i < 2 ^ Z.of_nat k ∧ bits k i = Z.b2z <$> combo ∧
            ∀ i', 0 ≤ i' < 2 ^ Z.of_nat k → bits k i' = Z.b2z <$> combo → i' = i) ∧
    (∀ i, 0 ≤ i < 2 ^ Z.of_nat k →
       ∃ combo p,
         length combo = k ∧ bits k i = Z.b2z <$> combo ∧
         rt !! Z.to_nat i = Some p ∧
         rf !! Z.to_nat i = Some (1 - p)%Qc ∧
         (p + (1 - p) = 1)%Qc ∧
         (base ≤ p)%Qc ∧
         (∀ (j : nat) s, syms !! j = Some s → combo !! j = Some true →
                         (given s ≤ p)%Qc) ∧
         (p = base ∨
          ∃ (j : nat) s, syms !! j = Some s ∧ combo !! j = Some true ∧ p = given s)).
Proof.
  apply (build_model_cpt MIN_PROB_default
           {[ "Flu" := {[ "base_prob" := Q2Qc (1 # 10); "Cough" := Q2Qc (3 # 10) ]} ]}
           flu_covid "Flu" ["Fever"; "Cough"]).
  vm_compute. apply list_elem_of_here.
Defined.

(** ** Inference and the diagnosis flows *)

(** *** Inference over a batch of diseases *)






(** *** Audit events of the operations *)

Lemma audit_log_audit st act d :
  audit (log_audit st act d) = audit st ++ [{| action := act; details := d |}].
Proof. done. Qed.

Lemma count_action_app act l1 l2 :
  count_action act (l1 ++ l2) = (count_action act l1 + count_action act l2)%nat.
Proof. unfold count_action. by rewrite filter_app, length_app. Qed.

Lemma count_action_one act n :
  count_action act [n] = if decide (action n = act) then 1%nat else 0%nat.
Proof. unfold count_action. rewrite filter_cons. by case_decide. Qed.

Lemma upsert_with_patient_effect st symptoms p ts :
  let st' := (upsert_special_case_with_patient st symptoms p ts).1 in
  (∃ d, audit st' = audit st ++
          [{| action := "UPSERT_SPECIAL_CASE_WITH_PATIENT"; details := d |}]) ∧
  hits_of st' (_sym_key symptoms) = hits_of st (_sym_key symptoms) + 1.
Proof.
  split; [by eexists|].
  unfold hits_of. rewrite upsert_lookup.
  by destruct (special_cases st !! _sym_key symptoms).
Qed.

Lemma upsert_special_case_effect st symptoms ts :
  let st' := (upsert_special_case st symptoms ts).1 in
  (∃ d, audit st' = audit st ++
          [{| action := "UPSERT_SPECIAL_CASE"; details := d |}]) ∧
  hits_of st' (_sym_key symptoms) = hits_of st (_sym_key symptoms) + 1.
Proof.
  split; [by eexists|].
  unfold hits_of, upsert_special_case. simpl. rewrite lookup_insert_eq.
  by destruct (special_cases st !! _sym_key symptoms).
Qed.




(** *** The unusual case *)

Lemma has_effect_refl key st : has_effect key st st (Build_Effect 0 0 0 0).
Proof.
  exists []. rewrite app_nil_r. split_and!; try done. simpl. lia.
Qed.


Lemma record_unusual_with_patient_effect st person syms ts :
  has_effect (_sym_key syms) st (record_unusual_with_patient st person syms ts)
    (Build_Effect 1 1 0 1).
Proof.
  unfold record_unusual_with_patient.
  destruct (upsert_with_patient_effect st syms person ts) as [[d Ha] Hh].
  eexists. rewrite audit_log_audit, Ha, <-(assoc_L (++)).
  split; [done|]. split_and!; [done..|]. exact Hh.
Qed.

Lemma record_unusual_effect st person syms ts :
  has_effect (_sym_key syms) st (record_unusual st person syms ts)
    (Build_Effect 1 0 1 1).
Proof.
  unfold record_unusual.
  destruct (upsert_special_case_effect st syms ts) as [[d Ha] Hh].
  eexists. rewrite audit_log_audit, Ha, <-(assoc_L (++)).
  split; [done|]. split_and!; [done..|]. exact Hh.
Qed.

Lemma upsert_with_patient_has_effect st person syms ts :
  has_effect (_sym_key syms) st
    (upsert_special_case_with_patient st syms person ts).1 (Build_Effect 0 1 0 1).
Proof.
  destruct (upsert_with_patient_effect st syms person ts) as [[d Ha] Hh].
  eexists. split; [exact Ha|]. split_and!; [done..|]. exact Hh.
Qed.


(** An attempt of [bayes_utils.diagnose_patient] that returns: no bundle
    was recorded for the symptoms, the inference over the matched
    diseases gave the result, and the store is the one after the
    unusual-case branch and the best guess. *)
Lemma bayes_attempt_returns T MIN_PROB probs posterior cache st person entries mode ts
    st' result :
  (bayes_diagnose_patient T MIN_PROB probs posterior cache st person entries
     mode ts).1 = Some (st', result) →
  let syms := normalized entries in
  find_special_case st syms = None ∧
  infer_all posterior (build_model MIN_PROB probs cache st).1 (evidence_of syms)
    (match_step st syms (min_matches_of mode)) [] = Some result ∧
  st' = record_best
          (if is_unusual T result then record_unusual st person syms ts else st)
          person result.
Proof.
  unfold bayes_diagnose_patient.
  destruct (find_special_case st (normalized entries)); [done|].
  destruct (build_model MIN_PROB probs cache st) as [model cache'].
  destruct (infer_all posterior model _ _ _) as [r|] eqn:Hinfer; [|done].
  cbn [fst]. by intros [= <- <-].
Qed.


(** The effect of [main.diagnose_patient]: the exception of the inference
    step leaves it after the upsert of the unknown-symptom branch. *)
Lemma main_diagnose_patient_effect T st person entries mode ts1 ts2 :
  let syms := normalized entries in
  let r := main_diagnose_patient T st person entries mode ts1 ts2 in
  let unknown := if find_unknown_symptoms st syms is [] then 0%nat else 1%nat in
  r.2 = None ∧
  has_effect (_sym_key syms) st r.1 (Build_Effect 0 unknown 0 (Z.of_nat unknown)).
Proof.
  unfold main_diagnose_patient. cbv zeta. cbn [diagnose fst snd].
  split; [done|].
  destruct (find_unknown_symptoms st (normalized entries)).
  - apply has_effect_refl.
  - apply upsert_with_patient_has_effect.
Qed.



(** Flagged with and without matched diseases: a fever matches both
    diseases, and with posteriors of 0.1 the attempt is flagged, upserts
    the bundle once and writes one UNUSUAL_CASE event before the best
    guess; with posteriors of 0.5 it is not flagged and writes neither. *)
Example flagged_with_matched_diseases :
  ∃ st1 result1 st2 result2,
    (bayes_diagnose_patient UNUSUAL_THRESH_default MIN_PROB_default ∅
       (λ _ _ _, Q2Qc (1 # 10)) None flu_covid "Ann" ["fever"] "w" 10).1
    = Some (st1, result1) ∧
    result1 = [("Flu", Q2Qc (1 # 10)); ("COVID-19", Q2Qc (1 # 10))] ∧
    action <$> audit st1 = ["UPSERT_SPECIAL_CASE"; "UNUSUAL_CASE"; "CREATE_DIAGNOSIS"] ∧
    hits_of st1 "Fever" = 1 ∧
    (bayes_diagnose_patient UNUSUAL_THRESH_default MIN_PROB_default ∅
       (λ _ _ _, half) None flu_covid "Ann" ["fever"] "w" 10).1
    = Some (st2, result2) ∧
    result2 = [("Flu", half); ("COVID-19", half)] ∧
    action <$> audit st2 = ["CREATE_DIAGNOSIS"] ∧
    hits_of st2 "Fever" = 0.
Proof.
  eexists _, _, _, _.
  split_and!;
    [vm_compute; reflexivity|compute_done|compute_done|compute_done
    |vm_compute; reflexivity|compute_done|compute_done|compute_done].
Qed.

(** C10, as the code has it: [is_unusual] of the empty mapping is true,
    and a first attempt of [bayes_utils.diagnose_patient] with symptoms
    that match no disease returns without a probability, upserts the
    bundle and writes the UNUSUAL_CASE event. Every later attempt with
    this symptom set finds the bundle and raises at the message about it
    ([time] is [datetime.time] there), before the match: it computes no
    probability and is not flagged. An attempt of [main.diagnose_patient]
    raises at its inference step: it computes no probability either and
    writes no UNUSUAL_CASE event. *)
Theorem no_probabilities_attempt_raises :
  (∀ T, is_unusual T [] = true) ∧
  (∀ T MIN_PROB probs posterior cache st person entries mode ts,
     find_special_case st (normalized entries) = None →
     match_step st (normalized entries) (min_matches_of mode) = [] →
     ∃ st1,
       (bayes_diagnose_patient T MIN_PROB probs posterior cache st person entries
          mode ts).1 = Some (st1, []) ∧
       (∃ events,
          audit st1 = audit st ++ events ∧
          count_action "UNUSUAL_CASE" events = 1%nat ∧
          count_action "UPSERT_SPECIAL_CASE" events = 1%nat) ∧
       match_step st1 (normalized entries) (min_matches_of mode) = [] ∧
       ∀ cache' person' entries' mode' ts',
         _sym_key (normalized entries') = _sym_key (normalized entries) →
         bayes_diagnose_patient T MIN_PROB probs posterior cache' st1 person'
           entries' mode' ts' = (None, cache')) ∧
  (∀ T st person entries mode ts1 ts2,
     let r := main_diagnose_patient T st person entries mode ts1 ts2 in
     r.2 = None ∧
     count_action "UNUSUAL_CASE" (audit r.1) = count_action "UNUSUAL_CASE" (audit st)).
Proof.
  split_and!.
  - done.
  - intros T MIN_PROB probs posterior cache st person entries mode ts Hnone Hmatch.
    exists (record_unusual st person (normalized entries) ts).
    split_and!.
    + unfold bayes_diagnose_patient. rewrite Hnone, Hmatch.
      by destruct (build_model MIN_PROB probs cache st) as [model cache'].
    + destruct (record_unusual_effect st person (normalized entries) ts)
        as (events & Ha & Hu & _ & Hs & _).
      exists events. by split_and!.
    + exact Hmatch.
    + intros cache' person' entries' mode' ts' Hkey.
      unfold bayes_diagnose_patient, find_special_case.
      rewrite Hkey. cbn [record_unusual log_audit upsert_special_case fst special_cases].
      by rewrite lookup_insert_eq.
  - intros T st person entries mode ts1 ts2 r.
    destruct (main_diagnose_patient_effect T st person entries mode ts1 ts2)
      as (Hnone & events & Ha & Hu & _).
    fold r in Hnone, Ha. split; [done|].
    rewrite Ha, count_action_app, Hu. cbn [n_unusual]. lia.
Qed.

(** Ann and then Bob with a rash on the two-disease graph, and Ann with a
    fever at the prompt of [main.py]. *)
Lemma no_probabilities_attempt_raises_witness :
  ∃ st1,
    (bayes_diagnose_patient UNUSUAL_THRESH_default MIN_PROB_default ∅
       (λ _ _ _, half) None flu_covid "Ann" ["Rash"] "a" 10).1 = Some (st1, []) ∧
    count_action "UNUSUAL_CASE" (audit st1) = 1%nat ∧
    bayes_diagnose_patient UNUSUAL_THRESH_default MIN_PROB_default ∅
      (λ _ _ _, half) (Some flu_covid_model) st1 "Bob" [" rash"] "a" 20
    = (None, Some flu_covid_model) ∧
    (main_diagnose_patient UNUSUAL_THRESH_default flu_covid "Ann" ["fever"] "a" 10 20).2
    = None.
Proof.
  destruct (proj1 (proj2 no_probabilities_attempt_raises) UNUSUAL_THRESH_default
              MIN_PROB_default ∅ (λ _ _ _, half) None flu_covid "Ann" ["Rash"] "a" 10)
    as (st1 & Hfirst & (events & Ha & Hu & _) & _ & Hsecond).
  - vm_compute. reflexivity.
  - vm_compute. reflexivity.
  - exists st1. split_and!.
    + exact Hfirst.
    + rewrite Ha. exact Hu.
    + apply Hsecond. vm_compute. reflexivity.
    + apply (proj2 (proj2 no_probabilities_attempt_raises)).
Defined.

(** ** The audit sink on a store that can fail *)

Module SinkFacts.
Import Sink.

Local Open Scope nat_scope.

Example log_audit_after_one_failure :
  log_audit (outage 1) 10 "USER_LOGIN" {| attempts := 0; written := [] |}
  = (Returns, {| attempts := 2; written := ["QUERY_ERROR"] |}).
Proof. reflexivity. Qed.

Lemma log_audit_reachable fails depth act w :
  fails (attempts w) = false → (2 ≤ depth)%nat →
  log_audit fails depth act w = (Returns, wrote act w).
Proof.
  intros Hf Hd. destruct depth as [|[|d]]; [lia..|]. simpl. by rewrite Hf.
Qed.

(** An outage that ends while frames are left is survived. *)
Lemma log_audit_recovers fails n depth act w :
  (∀ j, (j < n)%nat → fails (attempts w + j)%nat = true) →
  fails (attempts w + n)%nat = false →
  (2 * n + 2 ≤ depth)%nat →
  (log_audit fails depth act w).1 = Returns.
Proof.
  revert depth act w. induction n as [|n IH]; intros depth act w Hdown Hup Hd.
  - rewrite log_audit_reachable; [done| |lia]. by rewrite Nat.add_0_r in Hup.
  - destruct depth as [|[|d]]; [lia..|].
    change (log_audit fails (S (S d)) act w)
      with (match _run fails (S d) act w with
            | (Returns, w1) => (Returns, w1)
            | (Raises, w1) => _run fails (S d) "AUDIT_LOGGING_FAILED" w1
            end).
    change (_run fails (S d) act w)
      with (if fails (attempts w)
            then log_audit fails d "QUERY_ERROR" (attempted w)
            else (Returns, wrote act w)).
    rewrite <-(Nat.add_0_r (attempts w)), Hdown by lia.
    specialize (IH d "QUERY_ERROR" (attempted w)).
    destruct (log_audit fails d "QUERY_ERROR" (attempted w)) as [[] w1]; [done|].
    exfalso. assert (Raises = Returns) as Habs; [|done].
    apply IH; [| |lia]; unfold attempted; cbn [attempts].
    + intros j Hj. replace (S (attempts w) + j)%nat with (attempts w + S j)%nat by lia.
      apply Hdown. lia.
    + by replace (S (attempts w) + n)%nat with (attempts w + S n)%nat by lia.
Qed.

Lemma store_down_raises depth act w :
  (_run store_down depth act w).1 = Raises ∧
  (log_audit store_down depth act w).1 = Raises.
Proof.
  revert act w. induction depth as [|d IH]; intros act w; [done|].
  assert ((_run store_down (S d) act w).1 = Raises) as Hrun.
  { simpl. apply IH. }
  split; [done|]. simpl.
  destruct (_run store_down d act w) as [[] w1] eqn:H1.
  - pose proof (proj1 (IH act w)) as H. by rewrite H1 in H.
  - apply IH.
Qed.

(** C9 on an unreachable store: whatever the recursion limit,
    [log_audit] does not return: an exception leaves it, and [login_cli]
    returns the empty string instead of the name. *)
Theorem log_audit_store_down depth act name w :
  (log_audit store_down depth act w).1 = Raises ∧
  (login_cli store_down depth name w).1 = ""%string.
Proof.
  split; [apply store_down_raises|].
  destruct depth as [|d]; [done|]. simpl.
  pose proof (proj2 (store_down_raises d "USER_LOGIN" w)) as H.
  by destruct (log_audit store_down d "USER_LOGIN" w) as [[] w1].
Qed.

(** On a store that answers, [login_cli] returns the name. *)
Lemma login_cli_reachable fails depth name w :
  fails (attempts w) = false → (3 ≤ depth)%nat →
  login_cli fails depth name w = (name, wrote "USER_LOGIN" w).
Proof.
  intros Hf Hd. destruct depth as [|d]; [lia|]. simpl.
  rewrite log_audit_reachable; [done..|lia].
Qed.

End SinkFacts.

(** On a store that answers, the sink writes what [log_audit] of the
    store model writes: one node with the action. *)
Lemma sink_agrees st act d depth w :
  (2 ≤ depth)%nat →
  action <$> audit (log_audit st act d) = (action <$> audit st) ++ [act] ∧
  Sink.written (Sink.log_audit (Sink.outage 0) depth act w).2 = Sink.written w ++ [act].
Proof.
  intros Hd. split.
  - by rewrite audit_log_audit, fmap_app.
  - by rewrite SinkFacts.log_audit_reachable.
Qed.

(** ** Worked instances *)

(** The strict match of all three symptoms of COVID-19. *)
Lemma diseases_by_symptoms_spec_witness :
  "COVID-19" ∈ diseases_by_symptoms flu_covid ["fever"; "cough"; "loss of smell"] None.
Proof.
  apply (proj2 (proj2 (proj2
           (diseases_by_symptoms_spec flu_covid ["fever"; "cough"; "loss of smell"])))).
  - compute_done.
  - compute_done.
  - compute_done.
Defined.

(** The strict match of Fever and Cough returns Flu. *)
Lemma match_strict_and_wide_witness :
  "Flu" ∈ diseases_by_symptoms flu_covid ["Fever"; "Cough"] None.
Proof.
  apply (proj1 (match_strict_and_wide flu_covid ["Fever"; "Cough"] "Flu")).
  - compute_done.
  - compute_done.
  - compute_done.
Defined.


(** A model cached before Cold was loaded does not have it: the wide
    match returns Cold and the attempt fails at its query. After
    [invalidate_cache] the attempt returns. *)
Example stale_cache_fails_attempt :
  match_step flu_covid_cold ["Cough"] (Some 1) = ["Flu"; "COVID-19"; "Cold"] ∧
  (bayes_diagnose_patient UNUSUAL_THRESH_default MIN_PROB_default ∅ (λ _ _ _, half)
     (Some flu_covid_model) flu_covid_cold "Ann" ["cough"] "w" 10).1 = None ∧
  is_Some
    (bayes_diagnose_patient UNUSUAL_THRESH_default MIN_PROB_default ∅ (λ _ _ _, half)
       (invalidate_cache (Some flu_covid_model)) flu_covid_cold "Ann" ["cough"] "w" 10).1.
Proof. split_and!; compute_done. Qed.

(** In [bayes_utils.diagnose_patient] the first attempt with unmatched
    symptoms records the bundle; the next attempt with these symptoms
    finds it and fails at the message about it. *)
Example recorded_bundle_fails_attempt :
  ∃ st' result,
    (bayes_diagnose_patient UNUSUAL_THRESH_default MIN_PROB_default ∅ (λ _ _ _, half)
       None flu_covid "Ann" ["Rash"] "a" 10).1 = Some (st', result) ∧
    hits_of st' "Rash" = 1 ∧
    (bayes_diagnose_patient UNUSUAL_THRESH_default MIN_PROB_default ∅ (λ _ _ _, half)
       None st' "Bob" ["rash"] "a" 20).1 = None.
Proof. eexists _, _. split_and!; [vm_compute; reflexivity|compute_done..]. Qed.

(** ** Further properties of the code *)

(** *** The structure of the compiled model *)

Lemma elem_of_fetch_graph st d syms :
  (d, syms) ∈ _fetch_graph st ↔
  syms = snd <$> filter (λ r, r.1 = d) (has_symptom st) ∧
  ∃ s, (d, s) ∈ has_symptom st.
Proof.
  unfold _fetch_graph. rewrite list_elem_of_fmap. split.
  - intros (d' & [= -> ->] & Hd). split; [done|].
    apply elem_of_remove_dups, list_elem_of_fmap in Hd as ([d0 s] & -> & Hr).
    by exists s.
  - intros [-> (s & Hr)]. exists d. split; [done|].
    apply elem_of_remove_dups, list_elem_of_fmap. by exists (d, s).
Qed.

Lemma elem_of_symptoms_of st d s :
  s ∈ snd <$> filter (λ r, r.1 = d) (has_symptom st) ↔ (d, s) ∈ has_symptom st.
Proof.
  rewrite list_elem_of_fmap. split.
  - intros ([d' s'] & -> & [Hd Hr]%list_elem_of_filter). simpl in *. by subst.
  - intros Hr. exists (d, s). split; [done|]. by apply list_elem_of_filter.
Qed.

Lemma elem_of_compiled_edges MIN_PROB probs st s d :
  (s, d) ∈ edges (compile MIN_PROB probs (_fetch_graph st)) ↔ (d, s) ∈ has_symptom st.
Proof.
  simpl. rewrite list_elem_of_bind. split.
  - intros ([d' syms] & Hin & [-> _]%elem_of_fetch_graph). simpl in Hin.
    apply list_elem_of_fmap in Hin as (s' & [= -> ->] & Hs).
    by apply elem_of_symptoms_of.
  - intros Hr. exists (d, snd <$> filter (λ r, r.1 = d) (has_symptom st)).
    split.
    + simpl. apply list_elem_of_fmap. exists s. split; [done|].
      by apply elem_of_symptoms_of.
    + apply elem_of_fetch_graph. eauto.
Qed.

Lemma elem_of_nodes m n :
  n ∈ nodes m ↔ ∃ x, (n, x) ∈ edges m ∨ (x, n) ∈ edges m.
Proof.
  unfold nodes. rewrite elem_of_remove_dups, elem_of_app, !list_elem_of_fmap. split.
  - intros [([a b] & -> & H)|([a b] & -> & H)]; simpl; eauto.
  - intros (x & [H|H]); [left; by exists (n, x)|right; by exists (x, n)].
Qed.

(** X2: the model compiled from a store has an edge from a symptom to a
    disease exactly for the relationships of the store; its variables
    are the diseases and symptoms that take part in one; every variable
    has a CPD, and the CPD of a disease has the symptoms of the disease
    as evidence, which are the sources of its edges. *)
Theorem compiled_model_structure MIN_PROB probs st :
  let m := compile MIN_PROB probs (_fetch_graph st) in
  (∀ s d, (s, d) ∈ edges m ↔ (d, s) ∈ has_symptom st) ∧
  (∀ n, n ∈ nodes m ↔ ∃ x, (n, x) ∈ has_symptom st ∨ (x, n) ∈ has_symptom st) ∧
  (∀ n, n ∈ nodes m → ∃ cpd, cpd ∈ cpds m ∧ variable cpd = n) ∧
  (∀ d s, (d, s) ∈ has_symptom st →
     ∃ cpd, cpd ∈ cpds m ∧ variable cpd = d ∧
            length (evidence_card cpd) = length (evidence cpd) ∧
            ∀ s', s' ∈ evidence cpd ↔ (s', d) ∈ edges m).
Proof.
  intros m.
  assert (∀ d s, (d, s) ∈ has_symptom st →
            disease_cpd MIN_PROB probs d
              (snd <$> filter (λ r, r.1 = d) (has_symptom st)) ∈ cpds m) as Hdis.
  { intros d s Hr. simpl. apply elem_of_app. right. apply list_elem_of_fmap.
    exists (d, snd <$> filter (λ r, r.1 = d) (has_symptom st)).
    split; [done|]. apply elem_of_fetch_graph. eauto. }
  assert (∀ d s, (d, s) ∈ has_symptom st → symptom_cpd s ∈ cpds m) as Hsym.
  { intros d s Hr. simpl. apply elem_of_app. left. apply list_elem_of_fmap.
    exists s. split; [done|]. apply elem_of_remove_dups, list_elem_of_bind.
    exists (d, snd <$> filter (λ r, r.1 = d) (has_symptom st)). split.
    - by apply elem_of_symptoms_of.
    - apply elem_of_fetch_graph. eauto. }
  split_and!.
  - intros s d. apply elem_of_compiled_edges.
  - intros n. rewrite elem_of_nodes. subst m.
    setoid_rewrite elem_of_compiled_edges. split; intros (x & [H|H]); eauto.
  - intros n (x & [H|H])%elem_of_nodes;
      apply (elem_of_compiled_edges MIN_PROB probs) in H.
    + exists (symptom_cpd n). split; [by eapply Hsym|done].
    + eexists. split; [by eapply Hdis|done].
  - intros d s Hr. eexists. split; [by eapply Hdis|]. simpl.
    split_and!; [done|by rewrite length_replicate|].
    intros s'. rewrite elem_of_symptoms_of. symmetry.
    apply (elem_of_compiled_edges MIN_PROB probs).
Qed.

(** *** The model cache *)

(** X1: once a model is built it is served for every later call,
    whatever the store has become: after a first build from the store
    [st] the variables of the model served for any store [st'] are the
    diseases and symptoms of the relationships of [st], so a disease
    loaded since is not among them. After [invalidate_cache] the next
    call compiles the graph of the store it is given, and has them. *)
Theorem build_model_cache_served MIN_PROB probs cache st st' :
  let r := build_model MIN_PROB probs cache st in
  let fresh := (build_model MIN_PROB probs (invalidate_cache r.2) st').1 in
  is_Some r.2 ∧
  build_model MIN_PROB probs r.2 st' = r ∧
  (cache = None →
   ∀ n, n ∈ nodes (build_model MIN_PROB probs r.2 st').1 ↔
        ∃ x, (n, x) ∈ has_symptom st ∨ (x, n) ∈ has_symptom st) ∧
  fresh = compile MIN_PROB probs (_fetch_graph st') ∧
  (∀ n, n ∈ nodes fresh ↔ ∃ x, (n, x) ∈ has_symptom st' ∨ (x, n) ∈ has_symptom st').
Proof.
  assert (∀ st0 n, n ∈ nodes (compile MIN_PROB probs (_fetch_graph st0)) ↔
                   ∃ x, (n, x) ∈ has_symptom st0 ∨ (x, n) ∈ has_symptom st0) as Hnodes.
  { intros st0 n. rewrite elem_of_nodes. split; intros (x & [H|H]); exists x.
    - right. by apply (elem_of_compiled_edges MIN_PROB probs).
    - left. by apply (elem_of_compiled_edges MIN_PROB probs).
    - right. by apply (elem_of_compiled_edges MIN_PROB probs).
    - left. by apply (elem_of_compiled_edges MIN_PROB probs). }
  intros r fresh. subst r fresh. split_and!.
  - destruct cache; simpl; eauto.
  - by destruct cache.
  - intros -> n. apply Hnodes.
  - done.
  - intros n. apply Hnodes.
Qed.

(** *** The best guess *)

Lemma py_argmax_spec (acc : string * Qc) (l : dict Qc) :
  let r := py_argmax acc l in
  (∀ x, x ∈ l → (x.2 ≤ r.2)%Qc) ∧ (acc.2 ≤ r.2)%Qc ∧
  (r = acc ∨
   ∃ i : nat, l !! i = Some r ∧ (acc.2 < r.2)%Qc ∧
              ∀ (j : nat) x, (j < i)%nat → l !! j = Some x → (x.2 < r.2)%Qc).
Proof.
  revert acc. induction l as [|kv l IH]; intros acc; simpl.
  { split_and!; [by intros x ?%elem_of_nil|apply Qcle_refl|by left]. }
  destruct (IH (if decide (acc.2 < kv.2)%Qc then kv else acc)) as (Hall & Hacc & Hr).
  case_decide as Hlt.
  - split_and!.
    + intros x [->|Hx]%elem_of_cons; [done|by apply Hall].
    + eapply Qcle_trans; [by apply Qclt_le_weak|done].
    + right. destruct Hr as [->|(i & Hi & Hlt' & Hbefore)].
      * exists 0%nat. split_and!; [done..|]. intros j x Hj. lia.
      * exists (S i). split_and!; [done| |].
        { eapply Qclt_trans; done. }
        intros [|j] x Hj Hx; simpl in Hx.
        { inversion Hx; subst. done. }
        apply (Hbefore j); [lia|done].
  - apply Qcnot_lt_le in Hlt. split_and!.
    + intros x [->|Hx]%elem_of_cons; [|by apply Hall].
      eapply Qcle_trans; done.
    + done.
    + destruct Hr as [->|(i & Hi & Hlt' & Hbefore)]; [by left|right].
      exists (S i). split_and!; [done..|].
      intros [|j] x Hj Hx; simpl in Hx.
      { inversion Hx; subst. eapply Qcle_lt_trans; done. }
      apply (Hbefore j); [lia|done].
Qed.

(** X3: the best guess recorded for a non-empty result is an entry of
    the result with the greatest probability, and the first such entry:
    every entry before it has a smaller probability. *)
Theorem best_guess_first_greatest (kv : string * Qc) (rest : dict Qc) :
  let best := py_argmax kv rest in
  (∀ x, x ∈ kv :: rest → (x.2 ≤ best.2)%Qc) ∧
  ∃ i : nat, (kv :: rest) !! i = Some best ∧
             ∀ (j : nat) x, (j < i)%nat → (kv :: rest) !! j = Some x → (x.2 < best.2)%Qc.
Proof.
  intros best. destruct (py_argmax_spec kv rest) as (Hall & Hacc & Hr).
  fold best in Hall, Hacc, Hr. split.
  - intros x [->|Hx]%elem_of_cons; [done|by apply Hall].
  - destruct Hr as [->|(i & Hi & Hlt & Hbefore)].
    + exists 0%nat. split; [done|]. intros j x Hj. lia.
    + exists (S i). split; [done|]. intros [|j] x Hj Hx; simpl in Hx.
      * inversion Hx; subst. done.
      * apply (Hbefore j); [lia|done].
Qed.

(** *** The rows of a disease CPD *)

Lemma py_max_mono a a' b b' :
  (a ≤ a')%Qc → (b ≤ b')%Qc → (py_max a b ≤ py_max a' b')%Qc.
Proof.
  intros Ha Hb. destruct (py_max_cases a b) as [-> | ->].
  - eapply Qcle_trans; [done|apply py_max_l].
  - eapply Qcle_trans; [done|apply py_max_r].
Qed.

Lemma p_true_mono MIN_PROB probs dis (syms : list string) (bs bs' : list Z) :
  Forall2 (λ b b', b = 1 → b' = 1) bs bs' →
  (p_true_of MIN_PROB probs dis syms bs ≤ p_true_of MIN_PROB probs dis syms bs')%Qc.
Proof.
  unfold p_true_of. intros Hbs.
  assert (prob_get probs dis "base_prob" MIN_PROB
          ≤ prob_get probs dis "base_prob" MIN_PROB)%Qc as Hle by apply Qcle_refl.
  revert Hle. generalize (prob_get probs dis "base_prob" MIN_PROB) at 1 3.
  generalize (prob_get probs dis "base_prob" MIN_PROB).
  revert syms. induction Hbs as [|b b' bs bs' Hb _ IH]; intros syms p0' p0 Hle.
  { by destruct syms. }
  destruct syms as [|s syms]; [done|]. simpl. apply IH.
  destruct (decide (b = 1)) as [Hb1|Hb1].
  - rewrite (decide_True (P := b' = 1)) by auto.
    apply py_max_mono; [done|apply Qcle_refl].
  - case_decide; [|done]. eapply Qcle_trans; [done|apply py_max_l].
Qed.

Lemma combination_zero k : combination k 0 = replicate k false.
Proof.
  induction k as [|k IH]; [done|].
  rewrite combination_S, IH, Z.testbit_0_l. done.
Qed.

Lemma all_false_or_true (l : list bool) :
  l = replicate (length l) false ∨ ∃ j : nat, l !! j = Some true.
Proof.
  induction l as [|[] l IH]; [by left|right; by exists 0%nat|].
  destruct IH as [IH|[j Hj]]; [left; simpl; by rewrite <-IH|right; by exists (S j)].
Qed.

Lemma bits_subset k i i' :
  Z.land i i' = i → Forall2 (λ b b', b = 1 → b' = 1) (bits k i) (bits k i').
Proof.
  intros Hland. rewrite !bits_combination. unfold combination.
  rewrite <-!list_fmap_compose. apply Forall2_fmap, Forall_Forall2_diag.
  apply Forall_forall. intros j _. simpl.
  rewrite <-Hland at 1. rewrite Z.land_spec.
  destruct (Z.testbit i (Z.of_nat j)), (Z.testbit i' (Z.of_nat j)); simpl; done.
Qed.

Lemma p_true_no_symptom MIN_PROB probs dis syms :
  p_true_of MIN_PROB probs dis syms (bits (length syms) 0)
  = prob_get probs dis "base_prob" MIN_PROB.
Proof.
  destruct (p_true_max_rule MIN_PROB probs dis syms (bits (length syms) 0))
    as (_ & _ & [H|(s & Hs & _)]); [done|].
  rewrite bits_combination, combination_zero in Hs.
  apply present_in_zip in Hs as (j & _ & Hj).
  apply lookup_replicate in Hj as [? _]. done.
Qed.

(** X4: in the true row of a disease CPD the entry of the combination
    without any symptom is the base probability, and an entry does not
    decrease when symptoms are added to the combination: if the bits of
    row [i] are among the bits of row [i'], the entry of [i] is at most
    the entry of [i']. *)
Theorem row_true_monotone MIN_PROB probs dis syms (i i' : Z) :
  0 ≤ i < 2 ^ Z.of_nat (length syms) →
  0 ≤ i' < 2 ^ Z.of_nat (length syms) →
  Z.land i i' = i →
  row_true MIN_PROB probs dis syms !! 0%nat
  = Some (prob_get probs dis "base_prob" MIN_PROB) ∧
  ∃ p p', row_true MIN_PROB probs dis syms !! Z.to_nat i = Some p ∧
          row_true MIN_PROB probs dis syms !! Z.to_nat i' = Some p' ∧
          (p ≤ p')%Qc.
Proof.
  intros Hi Hi' Hland. split.
  - change 0%nat with (Z.to_nat 0). rewrite row_true_lookup by lia.
    by rewrite p_true_no_symptom.
  - eexists _, _. split_and!; [by apply row_true_lookup..|].
    by apply p_true_mono, bits_subset.
Qed.

(** Rows 1 (second symptom only) and 3 (both symptoms) of Flu. *)
Lemma row_true_monotone_witness :
  row_true MIN_PROB_default ∅ "Flu" ["Fever"; "Cough"] !! 0%nat
  = Some (prob_get ∅ "Flu" "base_prob" MIN_PROB_default) ∧
  ∃ p p', row_true MIN_PROB_default ∅ "Flu" ["Fever"; "Cough"] !! Z.to_nat 1 = Some p ∧
          row_true MIN_PROB_default ∅ "Flu" ["Fever"; "Cough"] !! Z.to_nat 3 = Some p' ∧
          (p ≤ p')%Qc.
Proof.
  apply (row_true_monotone MIN_PROB_default ∅ "Flu" ["Fever"; "Cough"] 1 3).
  - simpl. lia.
  - simpl. lia.
  - reflexivity.
Defined.

Lemma elem_of_row_true MIN_PROB probs dis syms p :
  p ∈ row_true MIN_PROB probs dis syms →
  ∃ i, p = p_true_of MIN_PROB probs dis syms (bits (length syms) i).
Proof. unfold row_true. intros (i & -> & _)%list_elem_of_fmap. by exists i. Qed.

(** X5: when the base probability of a disease and the probabilities of
    its symptoms lie between 0 and 1, so does every entry of both rows
    of its CPD. *)
Theorem cpd_entries_probabilities MIN_PROB probs dis syms :
  (0 ≤ prob_get probs dis "base_prob" MIN_PROB ≤ 1)%Qc →
  (∀ s, s ∈ syms → (0 ≤ prob_get probs dis s SYMPTOM_PROB ≤ 1)%Qc) →
  (∀ p, p ∈ row_true MIN_PROB probs dis syms → (0 ≤ p ≤ 1)%Qc) ∧
  (∀ q, q ∈ row_false MIN_PROB probs dis syms → (0 ≤ q ≤ 1)%Qc).
Proof.
  intros Hbase Hsyms.
  assert (∀ i, (0 ≤ p_true_of MIN_PROB probs dis syms (bits (length syms) i) ≤ 1)%Qc)
    as Hp.
  { intros i.
    destruct (p_true_max_rule MIN_PROB probs dis syms (bits (length syms) i))
      as (_ & _ & [-> |(s & Hs & ->)]); [done|].
    apply Hsyms. by eapply elem_of_zip_r. }
  split.
  - intros p (i & ->)%elem_of_row_true. apply Hp.
  - unfold row_false. intros q (i & -> & _)%list_elem_of_fmap.
    destruct (Hp i) as [H0 H1]. split.
    + rewrite <-(Qcplus_opp_r (p_true_of MIN_PROB probs dis syms (bits (length syms) i))).
      unfold Qcminus. by apply Qcplus_le_mono_r.
    + unfold Qcminus.
      rewrite <-(Qcplus_0_r 1) at 2. apply Qcplus_le_mono_l.
      apply Qcopp_le_compat in H0. by rewrite Qcopp_involutive in H0 || exact H0.
Qed.

Lemma prob_get_no_override (probs : Probs) dis key fallback :
  probs !! dis = None → prob_get probs dis key fallback = fallback.
Proof. unfold prob_get. intros ->. simpl. by rewrite lookup_empty. Qed.

(** Flu with the default floor and no override. *)
Lemma cpd_entries_probabilities_witness :
  (∀ p, p ∈ row_true MIN_PROB_default ∅ "Flu" ["Fever"; "Cough"] → (0 ≤ p ≤ 1)%Qc) ∧
  (∀ q, q ∈ row_false MIN_PROB_default ∅ "Flu" ["Fever"; "Cough"] → (0 ≤ q ≤ 1)%Qc).
Proof.
  apply (cpd_entries_probabilities MIN_PROB_default ∅ "Flu" ["Fever"; "Cough"]).
  - rewrite prob_get_no_override by apply lookup_empty. compute_done.
  - intros s _. rewrite prob_get_no_override by apply lookup_empty. compute_done.
Defined.

(** X6: for a disease without overrides and a floor of at most 0.8, the
    true row is the floor for the combination without any symptom and
    0.8 for every other combination: one present symptom saturates the
    entry, further symptoms add nothing. *)
Theorem default_row_true MIN_PROB (probs : Probs) dis syms (i : Z) :
  probs !! dis = None →
  (MIN_PROB ≤ SYMPTOM_PROB)%Qc →
  0 ≤ i < 2 ^ Z.of_nat (length syms) →
  row_true MIN_PROB probs dis syms !! Z.to_nat i
  = Some (if decide (i = 0) then MIN_PROB else SYMPTOM_PROB).
Proof.
  intros Hno Hmin Hi. rewrite row_true_lookup by done. f_equal.
  case_decide as H0.
  { subst i. by rewrite p_true_no_symptom, prob_get_no_override. }
  destruct (p_true_max_rule MIN_PROB probs dis syms (bits (length syms) i))
    as (_ & Hall & Hex).
  rewrite prob_get_no_override in Hex by done.
  assert (∃ s, (1, s) ∈ zip (bits (length syms) i) syms) as [s Hs].
  { destruct (all_false_or_true (combination (length syms) i)) as [Hf|[j Hj]].
    - exfalso. apply H0. apply (combination_inj (length syms)); [done| |].
      + pose proof (Z.pow_pos_nonneg 2 (Z.of_nat (length syms))). lia.
      + by rewrite Hf, length_combination, combination_zero.
    - destruct (lookup_lt_is_Some_2 syms j) as [s Hs].
      { apply lookup_lt_Some in Hj. by rewrite length_combination in Hj. }
      exists s. rewrite bits_combination. apply present_in_zip. eauto. }
  apply Hall in Hs as Hle. rewrite prob_get_no_override in Hle by done.
  destruct Hex as [Hp|(s' & _ & Hp)].
  - apply Qcle_antisym; [by rewrite Hp|done].
  - by rewrite Hp, prob_get_no_override.
Qed.

(** Row 2 of COVID-19 (the second of three symptoms only). *)
Lemma default_row_true_witness :
  row_true MIN_PROB_default ∅ "COVID-19" ["Fever"; "Cough"; "Loss Of Smell"]
    !! Z.to_nat 2
  = Some (if decide (2 = 0) then MIN_PROB_default else SYMPTOM_PROB).
Proof.
  apply (default_row_true MIN_PROB_default ∅ "COVID-19"
           ["Fever"; "Cough"; "Loss Of Smell"] 2).
  - apply lookup_empty.
  - compute_done.
  - simpl. lia.
Defined.

(** *** Recording a diagnosis *)

(** X7: [create_diagnosis] writes its audit event in every case. When
    the person and the disease both have a node, the pair afterwards has
    exactly one relationship, with the new confidence; when one of the
    nodes is missing, no relationship is written. Relationships of other
    pairs and the nodes are untouched. *)
Theorem create_diagnosis_spec st person disease (confidence : Qc) :
  let st' := create_diagnosis st person disease confidence in
  (∃ d, audit st' = audit st ++ [{| action := "CREATE_DIAGNOSIS"; details := d |}]) ∧
  (person ∈ person_nodes st ∧ disease ∈ disease_nodes st →
   ∀ c, (person, disease, c) ∈ diagnosed_with st' ↔ c = confidence) ∧
  (¬ (person ∈ person_nodes st ∧ disease ∈ disease_nodes st) →
   diagnosed_with st' = diagnosed_with st) ∧
  (∀ p d c, (p, d) ≠ (person, disease) →
     ((p, d, c) ∈ diagnosed_with st' ↔ (p, d, c) ∈ diagnosed_with st)) ∧
  person_nodes st' = person_nodes st ∧ disease_nodes st' = disease_nodes st ∧
  has_symptom st' = has_symptom st ∧ special_cases st' = special_cases st.
Proof.
  intros st'. subst st'. unfold create_diagnosis. simpl.
  split_and!; try done.
  - by eexists.
  - intros Hboth c. rewrite decide_True by done.
    rewrite elem_of_app, list_elem_of_filter, list_elem_of_singleton. simpl.
    split; [intros [[? _]|[= ->]]; done|intros ->; by right].
  - intros Hnot. by rewrite decide_False.
  - intros p d c Hne. case_decide; [|done].
    rewrite elem_of_app, list_elem_of_filter, list_elem_of_singleton. simpl.
    split; [intros [[_ ?]|[= -> -> _]]; done|intros ?; by left].
Qed.

(** *** Normalising an input twice *)

Lemma normalized_idem symptoms : normalized (normalized symptoms) = normalized symptoms.
Proof.
  unfold normalized at 2 3. induction symptoms as [|s l IH]; [done|].
  rewrite filter_cons. case_decide as Hs; [|done].
  rewrite fmap_cons. unfold normalized in *. rewrite filter_cons.
  rewrite normalize_truthy, decide_True by done.
  rewrite fmap_cons, normalize_idem. by f_equal.
Qed.

(** X8: the prompt normalises the symptoms before it passes them on and
    the helpers normalise them again; the second normalisation changes
    nothing, so a helper gives the same result for a list and for its
    normalised form. *)
Theorem normalized_input_same_result symptoms :
  normalized (normalized symptoms) = normalized symptoms ∧
  _sym_key (normalized symptoms) = _sym_key symptoms ∧
  (∀ st min_matches,
     diseases_by_symptoms st (normalized symptoms) min_matches
     = diseases_by_symptoms st symptoms min_matches) ∧
  (∀ st, find_special_case st (normalized symptoms) = find_special_case st symptoms) ∧
  (∀ st t, find_similar_special_cases st (normalized symptoms) t
           = find_similar_special_cases st symptoms t) ∧
  (∀ st p ts, upsert_special_case_with_patient st (normalized symptoms) p ts
              = upsert_special_case_with_patient st symptoms p ts).
Proof.
  assert (_sym_key (normalized symptoms) = _sym_key symptoms) as Hkey.
  { unfold _sym_key, normalized_set. by rewrite normalized_idem. }
  split_and!; [apply normalized_idem|done|..].
  - intros. unfold diseases_by_symptoms. by rewrite normalized_idem.
  - intros. unfold find_special_case. by rewrite Hkey.
  - intros. unfold find_similar_special_cases, normalized_set.
    by rewrite normalized_idem.
  - intros. unfold upsert_special_case_with_patient, normalized_set.
    by rewrite Hkey, normalized_idem.
Qed.

(** *** What a match can return *)

Lemma matched_has_input_symptom st symptoms min_matches d :
  d ∈ diseases_by_symptoms st symptoms min_matches →
  ∃ s, (d, s) ∈ has_symptom st ∧ s ∈ normalized symptoms.
Proof.
  unfold diseases_by_symptoms.
  destruct (normalized symptoms) as [|s0 l] eqn:Hn; [by intros ?%elem_of_nil|].
  intros ([d' f] & -> & [_ [_ Hex]%elem_of_collect_matches]%list_elem_of_filter)
    %list_elem_of_fmap.
  done.
Qed.

Lemma match_step_cases st syms min_matches d :
  d ∈ match_step st syms min_matches →
  d ∈ diseases_by_symptoms st syms min_matches ∨
  d ∈ diseases_by_symptoms st syms (Some 2).
Proof.
  unfold match_step.
  destruct (diseases_by_symptoms st syms min_matches), min_matches; auto.
Qed.

(** X9: whatever the input and the match mode, a disease is returned by
    the match step (the relaxed retry included) only if one of its
    stored symptom names is among the normalised input symptoms; that
    name is therefore stored in normalised form (trimmed and in title
    case), and the disease is a variable of the model compiled from the
    same store. A disease whose symptoms are stored in another spelling
    is never matched. *)
Theorem matched_disease_known MIN_PROB probs st syms min_matches d :
  d ∈ match_step st syms min_matches →
  (∃ s, (d, s) ∈ has_symptom st ∧ s ∈ normalized syms ∧
        PyStr.title (PyStr.strip s) = s) ∧
  d ∈ nodes (build_model MIN_PROB probs None st).1.
Proof.
  intros Hd.
  assert (∃ s, (d, s) ∈ has_symptom st ∧ s ∈ normalized syms) as (s & Hr & Hs).
  { apply match_step_cases in Hd as [Hd|Hd]; by eapply matched_has_input_symptom. }
  split.
  - exists s. split_and!; [done..|].
    apply elem_of_normalized in Hs as (x & -> & _). apply normalize_idem.
  - apply elem_of_nodes. exists s. right. by apply elem_of_compiled_edges.
Qed.

(** The strict match of Fever and Cough returns Flu. *)
Lemma matched_disease_known_witness :
  (∃ s, ("Flu", s) ∈ has_symptom flu_covid ∧ s ∈ normalized ["fever"; "cough"] ∧
        PyStr.title (PyStr.strip s) = s) ∧
  "Flu" ∈ nodes (build_model MIN_PROB_default ∅ None flu_covid).1.
Proof.
  apply (matched_disease_known MIN_PROB_default ∅ flu_covid ["fever"; "cough"] None).
  compute_done.
Defined.

Example lower_case_symptom_never_matched :
  diseases_by_symptoms lower_case_graph ["fever"] (Some 1) = [] ∧
  diseases_by_symptoms lower_case_graph ["Fever"] (Some 1) = [].
Proof. split; compute_done. Qed.

(** *** The registry: round trips and edge cases *)

Lemma elem_of_foldl_merge {A} `{EqDecision A} (l xs : list A) x :
  x ∈ foldl merge l xs ↔ x ∈ l ∨ x ∈ xs.
Proof.
  revert l. induction xs as [|y xs IH]; intros l; simpl.
  { rewrite elem_of_nil. tauto. }
  rewrite IH, elem_of_cons. unfold merge. case_decide as Hy.
  - split; [tauto|]. intros [?|[->|?]]; auto.
  - rewrite elem_of_app, list_elem_of_singleton. tauto.
Qed.

Lemma foldl_merge_present {A} `{EqDecision A} (l xs : list A) :
  (∀ x, x ∈ xs → x ∈ l) → foldl merge l xs = l.
Proof.
  induction xs as [|y xs IH]; intros Hin; simpl; [done|].
  unfold merge at 2. rewrite decide_True by (apply Hin, list_elem_of_here).
  apply IH. intros x Hx. by apply Hin, list_elem_of_further.
Qed.

Lemma foldl_merge_NoDup {A} `{EqDecision A} (l xs : list A) :
  NoDup l → NoDup (foldl merge l xs).
Proof.
  revert l. induction xs as [|y xs IH]; intros l Hl; simpl; [done|].
  apply IH. unfold merge. case_decide as Hy; [done|].
  apply NoDup_app. split_and!; [done| |apply NoDup_singleton].
  intros x Hx ->%list_elem_of_singleton. done.
Qed.

Lemma normalized_nil_elements symptoms :
  normalized symptoms = [] ↔ elements (normalized_set symptoms) = [].
Proof.
  unfold normalized_set. rewrite elements_empty_iff, leibniz_equiv_iff. split.
  - by intros ->.
  - intros He. destruct (normalized symptoms) as [|s l]; [done|].
    exfalso. assert (s ∈ (∅ : gset string)) as Hs; [|by apply not_elem_of_empty in Hs].
    rewrite <-He. apply elem_of_list_to_set, list_elem_of_here.
Qed.

(** X10: after an upsert with a patient the bundle is found under every
    spelling of the same symptom set, with one hit more than before; the
    upsert itself returns this bundle when the input has a non-blank
    symptom. *)
Theorem find_after_upsert st symptoms symptoms' p ts :
  underlying symptoms' = underlying symptoms →
  let r := upsert_special_case_with_patient st symptoms p ts in
  ∃ c, find_special_case r.1 symptoms' = Some c ∧
       hits c = hits_of st (_sym_key symptoms) + 1 ∧
       first_seen c = default ts (first_seen <$> find_special_case st symptoms) ∧
       (normalized symptoms ≠ [] → r.2 = Some c).
Proof.
  intros Hu r. subst r. unfold find_special_case.
  rewrite (sym_key_underlying _ _ Hu), upsert_lookup. eexists. split; [done|].
  unfold hits_of. split_and!.
  - by destruct (special_cases st !! _sym_key symptoms).
  - by destruct (special_cases st !! _sym_key symptoms).
  - intros Hne. unfold upsert_special_case_with_patient. simpl.
    destruct (elements (normalized_set symptoms)) eqn:He; [|done].
    by apply normalized_nil_elements in He.
Qed.

(** Recorded as fever, rash and found as Rash, FEVER, rash. *)
Lemma find_after_upsert_witness :
  let r := upsert_special_case_with_patient flu_covid ["fever"; "rash"] "Ann" 10 in
  ∃ c, find_special_case r.1 ["Rash"; "FEVER"; " rash"] = Some c ∧
       hits c = hits_of flu_covid (_sym_key ["fever"; "rash"]) + 1 ∧
       first_seen c
       = default 10 (first_seen <$> find_special_case flu_covid ["fever"; "rash"]) ∧
       (normalized ["fever"; "rash"] ≠ [] → r.2 = Some c).
Proof.
  apply (find_after_upsert flu_covid ["fever"; "rash"] ["Rash"; "FEVER"; " rash"]).
  compute_done.
Defined.

(** X11: an upsert with a patient for an input without a non-blank
    symptom still counts a hit for the bundle under the empty key and
    writes its audit event, but returns nothing and adds no symptom node
    and no link. *)
Theorem upsert_blank_input st symptoms p ts :
  normalized symptoms = [] →
  let r := upsert_special_case_with_patient st symptoms p ts in
  _sym_key symptoms = "" ∧
  r.2 = None ∧
  hits_of r.1 "" = hits_of st "" + 1 ∧
  symptom_nodes r.1 = symptom_nodes st ∧
  case_has_symptom r.1 = case_has_symptom st ∧
  count_action "UPSERT_SPECIAL_CASE_WITH_PATIENT" (audit r.1)
  = S (count_action "UPSERT_SPECIAL_CASE_WITH_PATIENT" (audit st)).
Proof.
  intros Hn r.
  assert (_sym_key symptoms = "") as Hkey.
  { unfold _sym_key, normalized_set. by rewrite Hn. }
  pose proof (proj1 (normalized_nil_elements symptoms) Hn) as He.
  destruct (upsert_with_patient_effect st symptoms p ts) as [[d Ha] Hh].
  fold r in Ha, Hh. rewrite Hkey in Hh.
  split_and!; [done| |done| | |].
  - subst r. unfold upsert_special_case_with_patient. simpl. by rewrite He.
  - subst r. unfold upsert_special_case_with_patient. simpl. by rewrite He.
  - subst r. unfold upsert_special_case_with_patient. simpl. by rewrite He.
  - rewrite Ha, count_action_app, count_action_one. simpl. lia.
Qed.

(** The prompt left empty but for blanks and commas. *)
Lemma upsert_blank_input_witness :
  let r := upsert_special_case_with_patient flu_covid [" "; ""] "Ann" 10 in
  _sym_key [" "; ""] = "" ∧
  r.2 = None ∧
  hits_of r.1 "" = hits_of flu_covid "" + 1 ∧
  symptom_nodes r.1 = symptom_nodes flu_covid ∧
  case_has_symptom r.1 = case_has_symptom flu_covid ∧
  count_action "UPSERT_SPECIAL_CASE_WITH_PATIENT" (audit r.1)
  = S (count_action "UPSERT_SPECIAL_CASE_WITH_PATIENT" (audit flu_covid)).
Proof.
  apply (upsert_blank_input flu_covid [" "; ""] "Ann" 10). reflexivity.
Defined.

Lemma find_unknown_nil st symptoms :
  find_unknown_symptoms st symptoms = [] ↔ ∀ s, s ∈ symptoms → s ∈ symptom_nodes st.
Proof.
  unfold find_unknown_symptoms. split.
  - intros Hf s Hs. destruct (decide (s ∈ symptom_nodes st)) as [|Hn]; [done|].
    assert (s ∈ filter (λ s, s ∉ symptom_nodes st) symptoms) as Hin
      by by apply list_elem_of_filter.
    rewrite Hf in Hin. by apply elem_of_nil in Hin.
  - intros Hall. induction symptoms as [|s l IH]; [done|].
    rewrite filter_cons, decide_False.
    + apply IH. intros x Hx. by apply Hall, list_elem_of_further.
    + intros Hn. apply Hn, Hall, list_elem_of_here.
Qed.

(** X12: an upsert with a patient makes every symptom of its input a
    symptom node, so none of them is unknown afterwards; an upsert
    without a patient adds no symptom node, so what was unknown stays
    unknown. *)
Theorem upsert_and_unknown_symptoms st symptoms p ts :
  find_unknown_symptoms (upsert_special_case_with_patient st symptoms p ts).1
    (normalized symptoms) = [] ∧
  (∀ other, find_unknown_symptoms (upsert_special_case st symptoms ts).1 other
            = find_unknown_symptoms st other).
Proof.
  split; [|done].
  apply find_unknown_nil. intros s Hs.
  unfold upsert_special_case_with_patient. simpl.
  apply elem_of_foldl_merge. right.
  by apply elem_of_elements, elem_of_normalized_set.
Qed.

Lemma floor_of_fraction (n : Z) (t : Qc) :
  0 ≤ n → (t ≤ 1)%Qc → Qfloor (Qc_of_Z n * t)%Qc ≤ n.
Proof.
  intros Hn Ht.
  assert (Qle (Qc_of_Z n * t)%Qc (inject_Z n)) as Hle.
  { unfold Qcmult. simpl. rewrite Qred_correct.
    unfold Qcle, Qle in Ht. destruct t as [[a b] Hc]. simpl in *.
    unfold Qle. simpl. nia. }
  apply Qfloor_resp_le in Hle. by rewrite Qfloor_Z in Hle.
Qed.

Lemma upsert_links st symptoms p ts s :
  (_sym_key symptoms, s)
  ∈ case_has_symptom (upsert_special_case_with_patient st symptoms p ts).1
  ↔ (_sym_key symptoms, s) ∈ case_has_symptom st ∨ s ∈ normalized_set symptoms.
Proof.
  unfold upsert_special_case_with_patient. simpl.
  rewrite elem_of_foldl_merge, list_elem_of_fmap. split.
  - intros [?|(s' & [= ->] & Hs)]; [by left|right]. by apply elem_of_elements.
  - intros [?|Hs]; [by left|right]. exists s. split; [done|].
    by apply elem_of_elements.
Qed.

(** X13: the bundle just upserted with a patient is itself among the
    similar special cases of its symptoms, for every threshold up to 1,
    when the input has a non-blank symptom. *)
Theorem upserted_bundle_is_similar st symptoms p ts (t : Qc) :
  normalized symptoms ≠ [] →
  (t ≤ 1)%Qc →
  _sym_key symptoms
  ∈ sym_key <$>
      find_similar_special_cases
        (upsert_special_case_with_patient st symptoms p ts).1 symptoms t.
Proof.
  intros Hne Ht. apply list_elem_of_fmap.
  set (st' := (upsert_special_case_with_patient st symptoms p ts).1).
  exists {| sym_key := _sym_key symptoms;
            properties := special_cases st' !! _sym_key symptoms;
            matched_symptoms :=
              found_symptoms (case_has_symptom st')
                (elements (normalized_set symptoms)) (_sym_key symptoms) |}.
  split; [done|]. apply find_similar_rows.
  cbn [sym_key properties matched_symptoms]. split; [done|].
  assert (shared_symptoms st' symptoms (_sym_key symptoms) = normalized_set symptoms)
    as ->.
  { unfold shared_symptoms. rewrite (comm_L (∩)).
    apply subseteq_intersection_1_L. intros s Hs.
    apply elem_of_targets, upsert_links. by right. }
  assert (normalized_set symptoms ≠ ∅) as Hsize.
  { intros H0. apply Hne, normalized_nil_elements. by rewrite H0, elements_empty. }
  assert (size (normalized_set symptoms) ≠ 0)%nat as Hpos.
  { intros H0. apply Hsize. by apply leibniz_equiv, size_empty_iff. }
  assert (0 ≤ Z.of_nat (size (normalized_set symptoms))) as Hn0 by lia.
  pose proof (floor_of_fraction _ t Hn0 Ht). lia.
Qed.

(** The default threshold. *)
Lemma upserted_bundle_is_similar_witness :
  _sym_key ["rash"; "itch"; "fever"]
  ∈ sym_key <$>
      find_similar_special_cases
        (upsert_special_case_with_patient flu_covid ["rash"; "itch"; "fever"] "Ann" 10).1
        ["rash"; "itch"; "fever"] half.
Proof.
  apply (upserted_bundle_is_similar flu_covid ["rash"; "itch"; "fever"] "Ann" 10 half).
  - compute_done.
  - compute_done.
Defined.

Lemma filter_none {A} (P : A → Prop) `{∀ x, Decision (P x)} (l : list A) :
  (∀ x, x ∈ l → ¬ P x) → filter P l = [].
Proof.
  induction l as [|a l IH]; intros Hall; [done|].
  rewrite filter_cons, decide_False by apply Hall, list_elem_of_here.
  apply IH. intros x Hx. by apply Hall, list_elem_of_further.
Qed.

(** X14: [upsert_special_case] for symptoms none of which has a symptom
    node records the hit but links the bundle to no symptom and returns
    nothing; a bundle without links is returned by no search for similar
    special cases, whatever the symptoms and the threshold. *)
Theorem unlinked_bundle_never_similar st symptoms ts :
  (∀ s, s ∈ normalized symptoms → s ∉ symptom_nodes st) →
  (∀ s, (_sym_key symptoms, s) ∉ case_has_symptom st) →
  let r := upsert_special_case st symptoms ts in
  r.2 = None ∧
  hits_of r.1 (_sym_key symptoms) = hits_of st (_sym_key symptoms) + 1 ∧
  case_has_symptom r.1 = case_has_symptom st ∧
  ∀ other t, _sym_key symptoms ∉ sym_key <$> find_similar_special_cases r.1 other t.
Proof.
  intros Hunknown Hnolink r.
  assert (filter (λ s, s ∈ symptom_nodes st) (elements (normalized_set symptoms)) = [])
    as Hf.
  { apply filter_none. intros s Hs Hin.
    apply elem_of_elements, elem_of_normalized_set in Hs. by apply (Hunknown s). }
  assert (case_has_symptom r.1 = case_has_symptom st) as Hsame.
  { subst r. unfold upsert_special_case. simpl. by rewrite Hf. }
  split_and!; [|apply upsert_special_case_effect|done|].
  - subst r. unfold upsert_special_case. simpl. by rewrite Hf.
  - intros other t (row & Hk & [_ Hneed]%find_similar_rows)%list_elem_of_fmap.
    rewrite <-Hk in Hneed.
    assert (shared_symptoms r.1 other (_sym_key symptoms) = ∅) as Hempty.
    { apply set_eq. intros s. unfold shared_symptoms.
      rewrite elem_of_intersection, elem_of_targets, Hsame. split; [|set_solver].
      intros [Hl _]. by apply Hnolink in Hl. }
    rewrite Hempty, size_empty in Hneed. lia.
Qed.

(** Rash, unknown to the two-disease graph. *)
Lemma unlinked_bundle_never_similar_witness :
  let r := upsert_special_case flu_covid ["rash"] 5 in
  r.2 = None ∧
  hits_of r.1 (_sym_key ["rash"]) = hits_of flu_covid (_sym_key ["rash"]) + 1 ∧
  case_has_symptom r.1 = case_has_symptom flu_covid ∧
  ∀ other t, _sym_key ["rash"] ∉ sym_key <$> find_similar_special_cases r.1 other t.
Proof.
  apply (unlinked_bundle_never_similar flu_covid ["rash"] 5).
  - intros s Hs. vm_compute in Hs. apply list_elem_of_singleton in Hs as ->.
    compute_done.
  - intros s Hs. vm_compute in Hs. by apply elem_of_nil in Hs.
Defined.

(** X15: a bundle without a patient list, as [upsert_special_case]
    makes it, never gets one: each later upsert with a patient counts
    its hit and leaves the list absent. *)
Theorem patient_list_never_added st key c calls :
  special_cases st !! key = Some c →
  patients c = None →
  Forall (λ call, _sym_key call.1.1 = key) calls →
  ∃ c', special_cases (upsert_all st calls) !! key = Some c' ∧
        patients c' = None ∧
        hits c' = hits c + Z.of_nat (length calls) ∧
        first_seen c' = first_seen c.
Proof.
  intros Hc Hp. induction calls as [|call calls IH] using rev_ind; intros Hcalls.
  { exists c. split_and!; [done..|simpl; lia|done]. }
  apply Forall_app in Hcalls as [Hcalls [Hkey _]%Forall_cons].
  destruct (IH Hcalls) as (c1 & Hc1 & Hp1 & Hh1 & Hf1).
  rewrite upsert_all_snoc, <-Hkey, upsert_lookup, Hkey, Hc1.
  eexists. split; [done|]. simpl. rewrite Hp1, length_app. simpl.
  split_and!; [done|lia|done].
Qed.

(** Rash recorded without a patient, then upserted for Ann and Bob. *)
Lemma patient_list_never_added_witness :
  ∃ c', special_cases
          (upsert_all rash_recorded [(["Rash"], "Ann", 10); (["rash "], "Bob", 20)])
          !! "Rash" = Some c' ∧
        patients c' = None ∧
        hits c' = 1 + Z.of_nat 2 ∧
        first_seen c' = 5.
Proof.
  apply (patient_list_never_added rash_recorded "Rash"
           {| sc_symptoms := ["Rash"]; first_seen := 5; last_seen := None;
              hits := 1; patients := None |}).
  - vm_compute. reflexivity.
  - reflexivity.
  - repeat constructor.
Defined.

(** *** The audit sink during an outage *)

Module SinkOutage.
Import Sink.

Local Open Scope nat_scope.

(** X16: when the store fails for the first [n] queries and then answers,
    and enough frames are left, [log_audit] returns after [n + 1]
    attempts and exactly one node is written: the event itself when
    nothing failed, and otherwise a QUERY_ERROR event only, so the event
    that was to be logged is lost. *)
Theorem log_audit_outage fails n depth act w :
  (∀ j, j < n → fails (attempts w + j) = true) →
  fails (attempts w + n) = false →
  2 * n + 2 ≤ depth →
  log_audit fails depth act w
  = (Returns,
     {| attempts := attempts w + n + 1;
        written := written w ++ [match n with O => act | S _ => "QUERY_ERROR"%string end] |}).
Proof.
  revert depth act w. induction n as [|n IH]; intros depth act w Hdown Hup Hd.
  - rewrite Nat.add_0_r in Hup.
    rewrite SinkFacts.log_audit_reachable by (done || lia).
    unfold wrote. do 2 f_equal. lia.
  - destruct depth as [|[|d]]; [lia..|].
    change (log_audit fails (S (S d)) act w)
      with (match _run fails (S d) act w with
            | (Returns, w1) => (Returns, w1)
            | (Raises, w1) => _run fails (S d) "AUDIT_LOGGING_FAILED" w1
            end).
    change (_run fails (S d) act w)
      with (if fails (attempts w)
            then log_audit fails d "QUERY_ERROR" (attempted w)
            else (Returns, wrote act w)).
    assert (fails (attempts w) = true) as Hf.
    { rewrite <-(Nat.add_0_r (attempts w)). apply Hdown. lia. }
    rewrite Hf, (IH d "QUERY_ERROR"%string (attempted w)).
    + unfold attempted. cbn [attempts written]. do 2 f_equal; [lia|].
      by destruct n.
    + unfold attempted. cbn [attempts]. intros j Hj.
      replace (S (attempts w) + j) with (attempts w + S j) by lia.
      apply Hdown. lia.
    + unfold attempted. cbn [attempts].
      by replace (S (attempts w) + n) with (attempts w + S n) by lia.
    + lia.
Qed.

(** Two failed queries, then the store answers. *)
Lemma log_audit_outage_witness :
  log_audit (outage 2) 10 "USER_LOGIN" {| attempts := 0; written := [] |}
  = (Returns,
     {| attempts := 0 + 2 + 1;
        written := [] ++ [match 2 with O => "USER_LOGIN"%string
                          | S _ => "QUERY_ERROR"%string end] |}).
Proof.
  apply (log_audit_outage (outage 2) 2 10 "USER_LOGIN"
           {| attempts := 0; written := [] |}).
  - intros j Hj. simpl. unfold outage. by apply bool_decide_eq_true_2.
  - reflexivity.
  - lia.
Defined.

End SinkOutage.

(** *** The knowledge loader *)

Lemma elem_of_merge {A} `{EqDecision A} (l : list A) y x :
  x ∈ merge l y ↔ x ∈ l ∨ x = y.
Proof.
  unfold merge. case_decide as Hy.
  - split; [tauto|]. intros [?| ->]; done.
  - by rewrite elem_of_app, list_elem_of_singleton.
Qed.

Lemma merge_present {A} `{EqDecision A} (l : list A) y : y ∈ l → merge l y = l.
Proof. intros Hy. unfold merge. by rewrite decide_True. Qed.

Lemma merge_NoDup {A} `{EqDecision A} (l : list A) y : NoDup l → NoDup (merge l y).
Proof. intros Hl. apply (foldl_merge_NoDup l [y] Hl). Qed.

Lemma load_pairs_cons st ds pairs :
  load_pairs st (ds :: pairs)
  = load_pairs
      (connect_disease_symptom (merge_symptom (merge_disease st ds.1) ds.2) ds.1 ds.2)
      pairs.
Proof. done. Qed.

Lemma load_pair_fields st d s :
  let st' := connect_disease_symptom (merge_symptom (merge_disease st d) s) d s in
  has_symptom st' = merge (has_symptom st) (d, s) ∧
  disease_nodes st' = merge (disease_nodes st) d ∧
  symptom_nodes st' = merge (symptom_nodes st) s ∧
  person_nodes st' = person_nodes st ∧
  special_cases st' = special_cases st ∧
  case_has_symptom st' = case_has_symptom st ∧
  diagnosed_with st' = diagnosed_with st.
Proof.
  simpl. split_and!; try done.
  rewrite decide_True; [done|]. split; apply elem_of_merge; by right.
Qed.

Lemma load_pairs_graph st pairs :
  let st' := load_pairs st pairs in
  (∀ r, r ∈ has_symptom st' ↔ r ∈ has_symptom st ∨ r ∈ pairs) ∧
  (∀ d, d ∈ disease_nodes st' ↔ d ∈ disease_nodes st ∨ d ∈ pairs.*1) ∧
  (∀ s, s ∈ symptom_nodes st' ↔ s ∈ symptom_nodes st ∨ s ∈ pairs.*2) ∧
  (NoDup (has_symptom st) → NoDup (has_symptom st')) ∧
  (NoDup (disease_nodes st) → NoDup (disease_nodes st')) ∧
  (NoDup (symptom_nodes st) → NoDup (symptom_nodes st')) ∧
  person_nodes st' = person_nodes st ∧
  special_cases st' = special_cases st ∧
  case_has_symptom st' = case_has_symptom st ∧
  diagnosed_with st' = diagnosed_with st.
Proof.
  revert st. induction pairs as [|[d s] pairs IH]; intros st.
  { simpl. split_and!; try done; intros x; rewrite elem_of_nil; tauto. }
  rewrite load_pairs_cons. cbv zeta.
  destruct (load_pair_fields st d s) as (He & Hd & Hs & Hp & Hc & Hl & Hg).
  cbn [fst snd] in *.
  destruct (IH (connect_disease_symptom (merge_symptom (merge_disease st d) s) d s))
    as (IHe & IHd & IHs & IHne & IHnd & IHns & IHp & IHc & IHl & IHg).
  rewrite He, Hd, Hs in *.
  split_and!.
  - intros r. rewrite IHe, elem_of_merge, elem_of_cons. tauto.
  - intros x. rewrite IHd, elem_of_merge, fmap_cons, elem_of_cons. simpl. tauto.
  - intros x. rewrite IHs, elem_of_merge, fmap_cons, elem_of_cons. simpl. tauto.
  - intros. by apply IHne, merge_NoDup.
  - intros. by apply IHnd, merge_NoDup.
  - intros. by apply IHns, merge_NoDup.
  - congruence.
  - congruence.
  - congruence.
  - congruence.
Qed.

Lemma load_lines_pairs (extract : string → list (string * string)) st lines :
  foldl (λ st line, load_pairs st (extract line)) st lines
  = load_pairs st (lines ≫= extract).
Proof.
  revert st. induction lines as [|line lines IH]; intros st; [done|].
  simpl. rewrite IH. unfold load_pairs. by rewrite foldl_app.
Qed.

Lemma load_as_pairs (extract : string → list (string * string)) st fp content :
  ∃ st0 d,
    load extract st fp (Some content)
    = log_audit
        (load_pairs st0
           ((PyStr.strip <$>
               filter (λ line, Is_true (PyStr.truthy (PyStr.strip line))) content)
            ≫= extract))
        "KNOWLEDGE_GRAPH_POPULATED" d ∧
    has_symptom st0 = has_symptom st ∧ disease_nodes st0 = disease_nodes st ∧
    symptom_nodes st0 = symptom_nodes st ∧ person_nodes st0 = person_nodes st ∧
    special_cases st0 = special_cases st ∧
    case_has_symptom st0 = case_has_symptom st ∧
    diagnosed_with st0 = diagnosed_with st.
Proof.
  eexists _, _. unfold load, read_knowledge_file. rewrite load_lines_pairs.
  split; [done|]. by split_and!.
Qed.

Lemma elem_of_loaded_pairs (extract : string → list (string * string)) content r :
  r ∈ (PyStr.strip <$>
         filter (λ line, Is_true (PyStr.truthy (PyStr.strip line))) content)
      ≫= extract
  ↔ ∃ line, line ∈ content ∧ PyStr.truthy (PyStr.strip line) = true ∧
            r ∈ extract (PyStr.strip line).
Proof.
  rewrite list_elem_of_bind. split.
  - intros (l & Hr & (line & -> & [Ht Hl]%list_elem_of_filter)%list_elem_of_fmap).
    exists line. split_and!; [done| |done]. by apply Is_true_true.
  - intros (line & Hl & Ht & Hr). exists (PyStr.strip line). split; [done|].
    apply list_elem_of_fmap. exists line. split; [done|].
    apply list_elem_of_filter. split; [by apply Is_true_true|done].
Qed.

Lemma load_edges (extract : string → list (string * string)) st fp content d s :
  (d, s) ∈ has_symptom (load extract st fp (Some content)) ↔
  (d, s) ∈ has_symptom st ∨
  ∃ line, line ∈ content ∧ PyStr.truthy (PyStr.strip line) = true ∧
          (d, s) ∈ extract (PyStr.strip line).
Proof.
  destruct (load_as_pairs extract st fp content) as (st0 & det & -> & He & _).
  cbn [log_audit has_symptom].
  rewrite (proj1 (load_pairs_graph st0 _)), He. by rewrite elem_of_loaded_pairs.
Qed.

(** X17: after [load] the graph has the relationships it had and one for
    each pair extracted from a non-blank line of the file, and no other;
    each list stays free of repetitions and every relationship still
    joins nodes that exist; special cases, persons and diagnoses are
    untouched. *)
Theorem load_graph extract st fp content :
  let st' := load extract st fp (Some content) in
  (∀ d s, (d, s) ∈ has_symptom st' ↔
          (d, s) ∈ has_symptom st ∨
          ∃ line, line ∈ content ∧ PyStr.truthy (PyStr.strip line) = true ∧
                  (d, s) ∈ extract (PyStr.strip line)) ∧
  (NoDup (has_symptom st) → NoDup (has_symptom st')) ∧
  (NoDup (disease_nodes st) → NoDup (disease_nodes st')) ∧
  (NoDup (symptom_nodes st) → NoDup (symptom_nodes st')) ∧
  ((∀ d s, (d, s) ∈ has_symptom st → d ∈ disease_nodes st ∧ s ∈ symptom_nodes st) →
   ∀ d s, (d, s) ∈ has_symptom st' → d ∈ disease_nodes st' ∧ s ∈ symptom_nodes st') ∧
  special_cases st' = special_cases st ∧
  case_has_symptom st' = case_has_symptom st ∧
  person_nodes st' = person_nodes st ∧
  diagnosed_with st' = diagnosed_with st.
Proof.
  intros st'. subst st'.
  destruct (load_as_pairs extract st fp content)
    as (st0 & det & -> & He & Hd & Hs & Hp & Hc & Hl & Hg).
  set (pairs := (PyStr.strip <$> _) ≫= extract).
  destruct (load_pairs_graph st0 pairs)
    as (Ge & Gd & Gs & Gne & Gnd & Gns & Gp & Gc & Gl & Gg).
  cbn [log_audit has_symptom disease_nodes symptom_nodes person_nodes special_cases
         case_has_symptom diagnosed_with].
  rewrite He, Hd, Hs in *.
  split_and!; [|done..| |congruence|congruence|congruence|congruence].
  - intros d s. rewrite Ge. unfold pairs. by rewrite elem_of_loaded_pairs.
  - intros Hwf d s [Hold|Hnew]%Ge.
    + destruct (Hwf d s Hold). split; [apply Gd|apply Gs]; by left.
    + split; [apply Gd|apply Gs]; right; apply list_elem_of_fmap;
        by exists (d, s).
Qed.

Lemma load_pairs_present st pairs :
  (∀ r, r ∈ pairs →
        r ∈ has_symptom st ∧ r.1 ∈ disease_nodes st ∧ r.2 ∈ symptom_nodes st) →
  has_symptom (load_pairs st pairs) = has_symptom st ∧
  disease_nodes (load_pairs st pairs) = disease_nodes st ∧
  symptom_nodes (load_pairs st pairs) = symptom_nodes st.
Proof.
  revert st. induction pairs as [|[d s] pairs IH]; intros st Hall; [done|].
  rewrite load_pairs_cons. cbn [fst snd].
  destruct (Hall (d, s)) as (He & Hd & Hs); [apply list_elem_of_here|].
  cbn [fst snd] in *.
  destruct (load_pair_fields st d s) as (Fe & Fd & Fs & _).
  rewrite merge_present in Fe by done. rewrite merge_present in Fd by done.
  rewrite merge_present in Fs by done.
  destruct (IH (connect_disease_symptom (merge_symptom (merge_disease st d) s) d s))
    as (IHe & IHd & IHs).
  { intros r Hr. rewrite Fe, Fd, Fs. by apply Hall, list_elem_of_further. }
  rewrite IHe, IHd, IHs. done.
Qed.

(** X18: loading the same file a second time changes no node and no
    relationship: the graph, and with it the mapping the model is
    compiled from, is the one after the first load. A file that is
    missing leaves the graph as it is, and the load is still reported as
    populated after the read error. *)
Theorem load_twice (extract : string → list (string * string)) st fp file :
  let st1 := load extract st fp file in
  let st2 := load extract st1 fp file in
  has_symptom st2 = has_symptom st1 ∧
  disease_nodes st2 = disease_nodes st1 ∧
  symptom_nodes st2 = symptom_nodes st1 ∧
  _fetch_graph st2 = _fetch_graph st1 ∧
  (file = None →
   has_symptom st1 = has_symptom st ∧ disease_nodes st1 = disease_nodes st ∧
   symptom_nodes st1 = symptom_nodes st ∧
   action <$> audit st1
   = (action <$> audit st) ++ ["KNOWLEDGE_FILE_READ_ERROR"; "KNOWLEDGE_GRAPH_POPULATED"]).
Proof.
  intros st1 st2.
  assert (has_symptom st2 = has_symptom st1 ∧ disease_nodes st2 = disease_nodes st1 ∧
          symptom_nodes st2 = symptom_nodes st1) as (He & Hd & Hs).
  { subst st2. destruct file as [content|]; [|done].
    destruct (load_as_pairs extract st1 fp content)
      as (st0 & det & -> & He & Hd & Hs & _).
    cbn [log_audit has_symptom disease_nodes symptom_nodes].
    rewrite <-He, <-Hd, <-Hs. apply load_pairs_present.
    intros [d s] Hr. rewrite He, Hd, Hs. subst st1.
    destruct (load_as_pairs extract st fp content) as (st0' & det' & -> & _).
    cbn [log_audit has_symptom disease_nodes symptom_nodes fst snd].
    destruct (load_pairs_graph st0'
                ((PyStr.strip <$>
                    filter (λ line, Is_true (PyStr.truthy (PyStr.strip line))) content)
                 ≫= extract)) as (Ge & Gd & Gs & _).
    split_and!; [apply Ge|apply Gd|apply Gs]; right; [done|..];
      apply list_elem_of_fmap; by exists (d, s). }
  split_and!; [done..| |].
  - unfold _fetch_graph. by rewrite He.
  - intros ->. subst st1. unfold load. simpl. split_and!; [done..|].
    by rewrite <-(assoc_L (++)), fmap_app.
Qed.

(** X19: a symptom loaded in normalised form is matched under every
    spelling: if a pair of a disease with the normalised form of [x] was
    extracted from a non-blank line, the wide match of [x] on the loaded
    graph returns the disease. *)
Theorem loaded_symptom_is_matched (extract : string → list (string * string))
    st fp content line d x :
  line ∈ content →
  PyStr.truthy (PyStr.strip line) = true →
  PyStr.truthy (PyStr.strip x) = true →
  (d, PyStr.title (PyStr.strip x)) ∈ extract (PyStr.strip line) →
  d ∈ diseases_by_symptoms (load extract st fp (Some content)) [x] (Some 1).
Proof.
  intros Hline Ht Hx Hpair. apply match_at_least; [done|].
  assert (PyStr.title (PyStr.strip x)
          ∈ symptom_set (load extract st fp (Some content)) d ∩ normalized_set [x])
    as Hin.
  { apply elem_of_intersection. split.
    - apply elem_of_targets.
      apply load_edges. right. eauto.
    - apply elem_of_normalized_set, elem_of_normalized. exists x.
      split_and!; [done|apply list_elem_of_here|done]. }
  revert Hin. generalize (symptom_set (load extract st fp (Some content)) d
                          ∩ normalized_set [x]).
  intros X Hin. destruct (size X) eqn:Hsz; [|lia].
  apply size_empty_iff, leibniz_equiv in Hsz. subst X.
  by apply not_elem_of_empty in Hin.
Qed.

(** The line Flu has symptoms Fever, matched as fever. *)
Lemma loaded_symptom_is_matched_witness :
  "Flu" ∈ diseases_by_symptoms
            (load demo_extract empty_store "knowledge.txt"
               (Some [" Flu has symptoms Fever "; ""]))
            [" fever"] (Some 1).
Proof.
  apply (loaded_symptom_is_matched demo_extract empty_store "knowledge.txt"
           [" Flu has symptoms Fever "; ""] " Flu has symptoms Fever " "Flu" " fever").
  - apply list_elem_of_here.
  - reflexivity.
  - reflexivity.
  - vm_compute. apply list_elem_of_here.
Defined.

(** *** Symptom-to-disease probabilities *)

Lemma dict_set_fresh {V} (d : dict V) k v :
  k ∉ d.*1 → dict_set d k v = d ++ [(k, v)].
Proof.
  induction d as [|[k' v'] d IH]; simpl; [done|].
  rewrite not_elem_of_cons. intros [Hk Hd].
  case_decide; [congruence|]. by rewrite IH.
Qed.

Lemma foldl_dict_set_fresh {A V} (key : A → string) (val : A → V) (l : list A) acc :
  NoDup (acc.*1 ++ (key <$> l)) →
  foldl (λ d rec, dict_set d (key rec) (val rec)) acc l
  = acc ++ ((λ rec, (key rec, val rec)) <$> l).
Proof.
  revert acc. induction l as [|x l IH]; intros acc Hnd; simpl.
  - by rewrite app_nil_r.
  - simpl in Hnd. apply NoDup_app in Hnd as Hnd'. destruct Hnd' as (Ha & Hdisj & Hl).
    rewrite dict_set_fresh.
    + rewrite IH; [by rewrite <-(assoc_L (++))|].
      rewrite fmap_app. simpl. rewrite <-(assoc_L (++)). simpl.
      done.
    + intros Hin. apply (Hdisj _ Hin). apply list_elem_of_here.
Qed.

Lemma py_sum_from (a : Qc) (l : list Qc) : foldl Qcplus a l = (a + py_sum l)%Qc.
Proof.
  unfold py_sum. revert a. induction l as [|x l IH]; intros a; simpl.
  - ring.
  - rewrite IH, (IH (0 + x)%Qc). ring.
Qed.

Lemma py_sum_cons (x : Qc) l : py_sum (x :: l) = (x + py_sum l)%Qc.
Proof. unfold py_sum at 1. simpl. rewrite py_sum_from. ring. Qed.

Lemma py_sum_nonneg l : (∀ x, x ∈ l → (0 < x)%Qc) → (0 ≤ py_sum l)%Qc.
Proof.
  induction l as [|x l IH]; intros Hpos.
  - apply Qcle_refl.
  - rewrite py_sum_cons. apply Qcplus_nonneg_nonneg.
    + apply Qclt_le_weak, Hpos, list_elem_of_here.
    + apply IH. intros y Hy. by apply Hpos, list_elem_of_further.
Qed.

Lemma py_sum_bound l x :
  (∀ x, x ∈ l → (0 < x)%Qc) → x ∈ l → (0 < py_sum l)%Qc ∧ (x ≤ py_sum l)%Qc.
Proof.
  induction l as [|y l IH]; intros Hpos Hx; [by apply elem_of_nil in Hx|].
  rewrite py_sum_cons.
  assert (0 < y)%Qc as Hy by apply Hpos, list_elem_of_here.
  assert (0 ≤ py_sum l)%Qc as Hl.
  { apply py_sum_nonneg. intros z Hz. by apply Hpos, list_elem_of_further. }
  split.
  - by apply Qcplus_pos_nonneg.
  - apply elem_of_cons in Hx as [->|Hx].
    + rewrite <-(Qcplus_0_r y) at 1. by apply Qcplus_le_mono_l.
    + destruct IH as [_ IH]; [|done|].
      { intros z Hz. by apply Hpos, list_elem_of_further. }
      rewrite <-(Qcplus_0_l x). apply Qcplus_le_compat; [by apply Qclt_le_weak|done].
Qed.

Lemma py_sum_scaled (T : Qc) l :
  py_sum ((λ v, v / T)%Qc <$> l) = (py_sum l / T)%Qc.
Proof.
  induction l as [|x l IH].
  - unfold py_sum. simpl. unfold Qcdiv. ring.
  - rewrite fmap_cons, !py_sum_cons, IH. unfold Qcdiv. ring.
Qed.

Lemma count_plus_one_pos (n : nat) : (0 < Qc_of_Z (Z.of_nat n + 1))%Qc.
Proof. rewrite <-Z2Qc_inj_0. apply (proj1 (Z2Qc_inj_lt 0 (Z.of_nat n + 1))). lia. Qed.

Lemma inverse_count_pos (n : nat) :
  (0 < 1 / Qc_of_Z (Z.of_nat n + 1))%Qc.
Proof.
  unfold Qcdiv. rewrite Qcmult_1_l. apply Qcinv_pos, count_plus_one_pos.
Qed.

Lemma inverse_count_antitone (n m : nat) :
  (n ≤ m)%nat → (1 / Qc_of_Z (Z.of_nat m + 1) ≤ 1 / Qc_of_Z (Z.of_nat n + 1))%Qc.
Proof.
  intros Hnm.
  pose proof (count_plus_one_pos n) as Hn.
  pose proof (count_plus_one_pos m) as Hm.
  assert (Qc_of_Z (Z.of_nat n + 1) ≤ Qc_of_Z (Z.of_nat m + 1))%Qc as Hle.
  { apply (proj1 (Z2Qc_inj_le _ _)). lia. }
  unfold Qcdiv. rewrite !Qcmult_1_l.
  apply (Qcmult_le_mono_pos_l _ _ (Qc_of_Z (Z.of_nat m + 1))); [done|].
  rewrite Qcmult_inv_r; [|intros E; symmetry in E; by apply Qclt_not_eq in Hm].
  apply (Qcmult_le_mono_pos_r _ _ (Qc_of_Z (Z.of_nat n + 1))); [done|].
  rewrite <-Qcmult_assoc, Qcmult_inv_l; [|intros E; symmetry in E; by apply Qclt_not_eq in Hn].
  by rewrite Qcmult_1_l, Qcmult_1_r.
Qed.

Lemma disease_counts_perm st symptom :
  disease_counts st symptom ≡ₚ
    (λ d, (d, symptom_count st symptom d)) <$>
    remove_dups (fst <$> filter (λ r, r.2 = symptom) (has_symptom st)).
Proof. apply merge_sort_Permutation. Qed.

Lemma disease_counts_keys st symptom :
  NoDup (disease_counts st symptom).*1 ∧
  ∀ d, d ∈ (disease_counts st symptom).*1 ↔ (d, symptom) ∈ has_symptom st.
Proof.
  assert ((disease_counts st symptom).*1 ≡ₚ
          remove_dups (fst <$> filter (λ r, r.2 = symptom) (has_symptom st))) as Hp.
  { rewrite disease_counts_perm, <-list_fmap_compose.
    by rewrite <-(list_fmap_id (remove_dups _)) at 2. }
  split.
  - rewrite Hp. apply NoDup_remove_dups.
  - intros d. rewrite Hp, elem_of_remove_dups, list_elem_of_fmap. split.
    + intros ([d' s] & -> & [Hs Hin]%list_elem_of_filter). simpl in *. by subst.
    + intros Hin. exists (d, symptom). split; [done|]. by apply list_elem_of_filter.
Qed.

Lemma elem_of_disease_counts st symptom d n :
  (d, n) ∈ disease_counts st symptom → n = symptom_count st symptom d.
Proof.
  rewrite disease_counts_perm. intros (d' & [= -> ->] & _)%list_elem_of_fmap. done.
Qed.

(** The mapping before and after the normalisation. *)
Lemma probabilities_shape st symptom :
  let P := (λ rec : string * nat, (rec.1, (1 / Qc_of_Z (Z.of_nat rec.2 + 1))%Qc))
             <$> disease_counts st symptom in
  let T := py_sum P.*2 in
  get_symptom_disease_probabilities st symptom
  = (λ kv, (kv.1, (kv.2 / T)%Qc)) <$> P
  ∧ (∀ v, v ∈ P.*2 → (0 < v)%Qc).
Proof.
  intros P T.
  assert (∀ v, v ∈ P.*2 → (0 < v)%Qc) as Hpos.
  { intros v ([d p] & -> & ([d' n] & [= -> ->] & _)%list_elem_of_fmap)%list_elem_of_fmap.
    apply inverse_count_pos. }
  split; [|done].
  unfold get_symptom_disease_probabilities.
  destruct (length (filter (λ r, r.2 = symptom) (has_symptom st))) eqn:Hlen.
  - apply length_zero_iff_nil in Hlen.
    assert (disease_counts st symptom = []) as Hnil.
    { unfold disease_counts. by rewrite Hlen. }
    subst P. by rewrite Hnil.
  - cbv zeta.
    rewrite (foldl_dict_set_fresh fst
               (λ rec : string * nat, (1 / Qc_of_Z (Z.of_nat rec.2 + 1))%Qc)).
    2:{ simpl. apply disease_counts_keys. }
    simpl. fold P. fold T.
    case_decide as HT; [done|]. exfalso. apply HT.
    destruct (filter (λ r, r.2 = symptom) (has_symptom st)) as [|[d s] l] eqn:Hf;
      [done|].
    assert ((d, s) ∈ filter (λ r, r.2 = symptom) (has_symptom st)) as Hin.
    { rewrite Hf. apply list_elem_of_here. }
    apply list_elem_of_filter in Hin as [Hs Hin]. simpl in Hs. subst s.
    apply (proj2 (disease_counts_keys st symptom)) in Hin.
    apply list_elem_of_fmap in Hin as (rec & -> & Hrec).
    apply (py_sum_bound P.*2 (1 / Qc_of_Z (Z.of_nat rec.2 + 1))%Qc); [done|].
    apply list_elem_of_fmap.
    exists (rec.1, (1 / Qc_of_Z (Z.of_nat rec.2 + 1))%Qc). split; [done|].
    apply list_elem_of_fmap. by exists rec.
Qed.

(** X20: [get_symptom_disease_probabilities] returns a probability
    distribution over the diseases that have the symptom: one entry for
    each such disease and for no other name, every value positive and at
    most 1, and for a symptom that some disease has the values add up to
    1. A symptom no disease has gets the empty mapping. *)
Theorem symptom_probabilities_distribution st symptom :
  let r := get_symptom_disease_probabilities st symptom in
  NoDup r.*1 ∧
  (∀ d, d ∈ r.*1 ↔ (d, symptom) ∈ has_symptom st) ∧
  (∀ d p, (d, p) ∈ r → (0 < p ≤ 1)%Qc) ∧
  (r ≠ [] → py_sum r.*2 = 1%Qc).
Proof.
  intros r. subst r.
  destruct (probabilities_shape st symptom) as [-> Hpos].
  set (P := (λ rec : string * nat, (rec.1, (1 / Qc_of_Z (Z.of_nat rec.2 + 1))%Qc))
              <$> disease_counts st symptom) in *.
  set (T := py_sum P.*2).
  assert (((λ kv : string * Qc, (kv.1, (kv.2 / T)%Qc)) <$> P).*1
          = (disease_counts st symptom).*1) as Hkeys.
  { subst P. rewrite <-!list_fmap_compose. by apply list_fmap_ext. }
  assert (((λ kv : string * Qc, (kv.1, (kv.2 / T)%Qc)) <$> P).*2
          = (λ v, v / T)%Qc <$> P.*2) as Hvals.
  { rewrite <-!list_fmap_compose. by apply list_fmap_ext. }
  rewrite Hkeys, Hvals.
  split_and!; [apply disease_counts_keys..| |].
  - intros d p ([d' v] & [= _ ->] & Hin)%list_elem_of_fmap. simpl.
    assert (v ∈ P.*2) as Hv.
    { apply list_elem_of_fmap. by exists (d', v). }
    destruct (py_sum_bound _ _ Hpos Hv) as [HT Hle]. fold T in HT, Hle.
    assert (0 < / T)%Qc as Hinv by by apply Qcinv_pos.
    unfold Qcdiv. split.
    + apply Qcmult_pos_pos; [by apply Hpos|done].
    + rewrite <-(Qcmult_inv_r T); [|intros E; symmetry in E; by apply Qclt_not_eq in HT].
      by apply Qcmult_le_mono_pos_r.
  - intros Hne. rewrite py_sum_scaled. fold T.
    assert (∃ v, v ∈ P.*2) as [v Hv].
    { clear -Hne. destruct P as [|[d v] P']; [done|].
      exists v. apply list_elem_of_here. }
    destruct (py_sum_bound _ _ Hpos Hv) as [HT _]. fold T in HT.
    unfold Qcdiv. apply Qcmult_inv_r.
    intros E; symmetry in E; by apply Qclt_not_eq in HT.
Qed.

Lemma symptom_count_size st symptom d :
  NoDup (has_symptom st) → (d, symptom) ∈ has_symptom st →
  symptom_count st symptom d = size (symptom_set st d).
Proof.
  intros Hnd Hin. unfold symptom_count, symptom_set, targets.
  assert (length (filter (λ r, r.1 = d ∧ r.2 = symptom) (has_symptom st)) = 1%nat)
    as ->.
  { revert Hnd Hin. generalize (has_symptom st).
    induction l as [|[d' s'] l IH]; intros Hnd Hin; [by apply elem_of_nil in Hin|].
    apply NoDup_cons in Hnd as [Hnew Hnd]. rewrite filter_cons. simpl.
    case_decide as Heq.
    - destruct Heq as [-> ->]. rewrite filter_none; [done|].
      intros [d' s'] Hx [Hd Hs]. simpl in *. by subst.
    - apply elem_of_cons in Hin as [[= -> ->]|Hin]; [by destruct Heq|].
      by apply IH. }
  rewrite Nat.mul_1_l, size_list_to_set, length_fmap; [done|].
  revert Hnd. generalize (has_symptom st). clear.
  induction l as [|[d' s'] l IH]; intros Hnd; [apply NoDup_nil_2|].
  apply NoDup_cons in Hnd as [Hnew Hnd]. rewrite filter_cons. simpl.
  case_decide as Heq; [|by apply IH]. subst d'.
  rewrite fmap_cons. apply NoDup_cons. split; [|by apply IH].
  intros ([d' s''] & Hs & [Hd Hin]%list_elem_of_filter)%list_elem_of_fmap.
  simpl in *. by subst.
Qed.

(** X21: on a graph whose relationships are not repeated (they are made by
    MERGE), of two diseases with the symptom the one with no more
    recorded symptoms gets no lower a probability. *)
Theorem fewer_symptoms_more_likely st symptom d1 p1 d2 p2 :
  NoDup (has_symptom st) →
  (d1, p1) ∈ get_symptom_disease_probabilities st symptom →
  (d2, p2) ∈ get_symptom_disease_probabilities st symptom →
  (size (symptom_set st d1) ≤ size (symptom_set st d2))%nat →
  (p2 ≤ p1)%Qc.
Proof.
  intros Hnd H1 H2 Hsz.
  destruct (probabilities_shape st symptom) as [Hr Hpos].
  rewrite Hr in H1, H2. clear Hr.
  set (P := (λ rec : string * nat, (rec.1, (1 / Qc_of_Z (Z.of_nat rec.2 + 1))%Qc))
              <$> disease_counts st symptom) in *.
  set (T := py_sum P.*2) in *.
  apply list_elem_of_fmap in H1 as ([? v1] & [= -> ->] & H1). simpl in *.
  apply list_elem_of_fmap in H2 as ([? v2] & [= -> ->] & H2). simpl in *.
  assert (0 < T)%Qc as HT.
  { apply (py_sum_bound P.*2 v1); [done|]. apply list_elem_of_fmap. by eexists (_, v1). }
  assert (∀ d v, (d, v) ∈ P →
            v = (1 / Qc_of_Z (Z.of_nat (size (symptom_set st d)) + 1))%Qc) as Hval.
  { intros d v ([d' n] & [= -> ->] & Hrec)%list_elem_of_fmap. simpl.
    assert ((d', symptom) ∈ has_symptom st) as Hin.
    { apply disease_counts_keys, list_elem_of_fmap. by exists (d', n). }
    apply elem_of_disease_counts in Hrec. subst n.
    by rewrite symptom_count_size. }
  rewrite (Hval _ _ H1), (Hval _ _ H2).
  unfold Qcdiv at 1 3. apply Qcmult_le_mono_pos_r; [by apply Qcinv_pos|].
  apply inverse_count_antitone. lia.
Qed.

(** Fever on the graph of Flu, COVID-19 and Heat Stroke: Heat Stroke, with
    one symptom, against COVID-19, with three. *)
Lemma fewer_symptoms_more_likely_witness : (Q2Qc (3 # 13) ≤ Q2Qc (6 # 13))%Qc.
Proof.
  apply (fewer_symptoms_more_likely three_diseases "Fever"
           "Heat Stroke" (Q2Qc (6 # 13)) "COVID-19" (Q2Qc (3 # 13))).
  - compute_done.
  - compute_done.
  - compute_done.
  - compute_done.
Defined.

(** The mapping for Fever on that graph, in the order of the rows. *)
Example symptom_probabilities_fever :
  get_symptom_disease_probabilities three_diseases "Fever"
  = [("COVID-19", Q2Qc (3 # 13)); ("Flu", Q2Qc (4 # 13)); ("Heat Stroke", Q2Qc (6 # 13))].
Proof. compute_done. Qed.

(** *** The attempt of [main.diagnose_patient] as a whole *)

(** What the upsert and the best guess leave as it is. *)
Lemma upsert_with_patient_frame st symptoms p ts :
  let st' := (upsert_special_case_with_patient st symptoms p ts).1 in
  has_symptom st' = has_symptom st ∧ disease_nodes st' = disease_nodes st ∧
  person_nodes st' = person_nodes st ∧ diagnosed_with st' = diagnosed_with st ∧
  ∀ s, s ∈ symptom_nodes st' ↔ s ∈ symptom_nodes st ∨ s ∈ normalized symptoms.
Proof.
  simpl. split_and!; [done..|]. intros s.
  by rewrite elem_of_foldl_merge, elem_of_elements, elem_of_normalized_set.
Qed.

Lemma record_best_frame st person (result : dict Qc) :
  let st' := record_best st person result in
  has_symptom st' = has_symptom st ∧ disease_nodes st' = disease_nodes st ∧
  person_nodes st' = person_nodes st ∧ symptom_nodes st' = symptom_nodes st ∧
  (person ∉ person_nodes st → diagnosed_with st' = diagnosed_with st).
Proof.
  destruct result as [|kv rest]; simpl; [done|].
  split_and!; [done..|]. intros Hp. rewrite decide_False; [done|]. by intros [? _].
Qed.

(** The store an attempt of [main.diagnose_patient] leaves. *)
Lemma main_attempt_store T st person entries mode ts1 ts2 :
  main_diagnose_patient T st person entries mode ts1 ts2
  = (match find_unknown_symptoms st (normalized entries) with
     | [] => st
     | _ => (upsert_special_case_with_patient st (normalized entries) person ts1).1
     end, None).
Proof. done. Qed.

(** X22: the audit trail of one attempt of [main.diagnose_patient]: the
    attempt ends at the inference step with its exception and returns
    no result; the only event it writes is the upsert for a symptom
    unknown to the graph, never UNUSUAL_CASE or CREATE_DIAGNOSIS, and no
    diagnosis is stored. An attempt whose symptoms are all known leaves
    the store as it is, without any event. *)
Theorem main_diagnosis_audit_trail T st person entries mode ts1 ts2 :
  let syms := normalized entries in
  let r := main_diagnose_patient T st person entries mode ts1 ts2 in
  r.2 = None ∧
  action <$> audit r.1
  = (action <$> audit st)
    ++ (if find_unknown_symptoms st syms is [] then []
        else ["UPSERT_SPECIAL_CASE_WITH_PATIENT"]) ∧
  diagnosed_with r.1 = diagnosed_with st ∧
  (find_unknown_symptoms st syms = [] → r.1 = st).
Proof.
  intros syms r. subst r. rewrite main_attempt_store. cbn [fst snd]. fold syms.
  destruct (find_unknown_symptoms st syms) as [|u us].
  - split_and!; [done|by rewrite app_nil_r|done..].
  - split_and!; [done| |done..].
    cbn [upsert_special_case_with_patient fst].
    by rewrite audit_log_audit, fmap_app.
Qed.

(** X23: an attempt of [main.diagnose_patient] leaves the knowledge graph
    as it is: the relationships between diseases and symptoms, the
    disease and person nodes, hence every match and the model compiled
    from the graph. The only nodes it adds are symptom nodes, for the
    normalised input symptoms when one of them is unknown to the graph;
    afterwards none of them is unknown, so a further attempt with the
    same input changes nothing in the store: the bundle of a recurring
    symptom set is counted once. *)
Theorem main_diagnosis_keeps_graph T st person entries mode ts1 ts2 :
  let syms := normalized entries in
  let r := main_diagnose_patient T st person entries mode ts1 ts2 in
  has_symptom r.1 = has_symptom st ∧ disease_nodes r.1 = disease_nodes st ∧
  person_nodes r.1 = person_nodes st ∧
  (∀ symptoms mm,
     diseases_by_symptoms r.1 symptoms mm = diseases_by_symptoms st symptoms mm) ∧
  (∀ MIN_PROB probs,
     build_model MIN_PROB probs None r.1 = build_model MIN_PROB probs None st) ∧
  (∀ s, s ∈ symptom_nodes r.1 ↔
        s ∈ symptom_nodes st ∨ (s ∈ syms ∧ find_unknown_symptoms st syms ≠ [])) ∧
  find_unknown_symptoms r.1 syms = [] ∧
  (∀ person' mode' ts1' ts2',
     (main_diagnose_patient T r.1 person' entries mode' ts1' ts2').1 = r.1).
Proof.
  intros syms r.
  assert (has_symptom r.1 = has_symptom st ∧ disease_nodes r.1 = disease_nodes st ∧
          person_nodes r.1 = person_nodes st ∧
          ∀ s, s ∈ symptom_nodes r.1 ↔
               s ∈ symptom_nodes st ∨ (s ∈ syms ∧ find_unknown_symptoms st syms ≠ []))
    as (He & Hd & Hp & Hs).
  { subst r. rewrite main_attempt_store. cbn [fst]. fold syms.
    destruct (find_unknown_symptoms st syms) as [|u us] eqn:Hu.
    - split_and!; [done..|]. intros s. split; [by left|]. by intros [?|[_ ?]].
    - destruct (upsert_with_patient_frame st syms person ts1) as (? & ? & ? & _ & Hs).
      split_and!; [done..|]. intros s. rewrite Hs. subst syms.
      rewrite normalized_idem. split; (intros [?|?]; [by left|right]); [done|tauto]. }
  assert (find_unknown_symptoms r.1 syms = []) as Hknown.
  { apply find_unknown_nil. intros s Hin. apply Hs.
    destruct (find_unknown_symptoms st syms) as [|u us] eqn:Hu; [left|by right].
    by apply (proj1 (find_unknown_nil st syms) Hu). }
  split_and!; [done..| | |done|done|].
  - intros symptoms mm. unfold diseases_by_symptoms. by rewrite He.
  - intros MIN_PROB probs. unfold build_model, _fetch_graph. by rewrite He.
  - intros person' mode' ts1' ts2'. rewrite main_attempt_store. cbn [fst].
    fold syms. by rewrite Hknown.
Qed.

(** *** The best guess of [bayes_utils.diagnose_patient] *)

Lemma bayes_attempt_frame T MIN_PROB probs posterior cache st person entries mode ts
    st' result :
  (bayes_diagnose_patient T MIN_PROB probs posterior cache st person entries
     mode ts).1 = Some (st', result) →
  ∃ st1,
    st' = record_best st1 person result ∧
    has_symptom st1 = has_symptom st ∧ disease_nodes st1 = disease_nodes st ∧
    person_nodes st1 = person_nodes st ∧ symptom_nodes st1 = symptom_nodes st ∧
    diagnosed_with st1 = diagnosed_with st.
Proof.
  intros (_ & _ & ->)%bayes_attempt_returns.
  eexists. split; [done|]. by destruct (is_unusual T result).
Qed.

(** X24: [bayes_utils.diagnose_patient] reads the patient's name and never
    creates the Person node, and [create_diagnosis] matches both nodes
    before it merges the relationship: for a name without a Person node
    an attempt that returns has stored no diagnosis, although it ends
    with the CREATE_DIAGNOSIS event when the inference returned a
    disease. *)
Theorem unregistered_patient_diagnosis T MIN_PROB probs posterior cache st person
    entries mode ts st' result :
  person ∉ person_nodes st →
  (bayes_diagnose_patient T MIN_PROB probs posterior cache st person entries
     mode ts).1 = Some (st', result) →
  diagnosed_with st' = diagnosed_with st ∧ person_nodes st' = person_nodes st ∧
  (result ≠ [] →
   ∃ d, last (audit st') = Some {| action := "CREATE_DIAGNOSIS"; details := d |}).
Proof.
  intros Hp (st1 & -> & _ & _ & Hp1 & _ & Hg1)%bayes_attempt_frame.
  destruct (record_best_frame st1 person result) as (_ & _ & Hp2 & _ & Hg2).
  split_and!.
  - rewrite Hg2, Hg1; [done|]. by rewrite Hp1.
  - by rewrite Hp2, Hp1.
  - intros Hne. destruct result as [|kv rest]; [done|].
    cbn [record_best]. unfold create_diagnosis. cbv zeta.
    rewrite audit_log_audit, last_snoc. by eexists.
Qed.

(** Ann, who has no node, with a fever on the two-disease graph. *)
Lemma unregistered_patient_diagnosis_witness :
  ∃ st' result,
    (bayes_diagnose_patient UNUSUAL_THRESH_default MIN_PROB_default ∅
       (λ _ _ _, half) None flu_covid "Ann" ["fever"] "w" 10).1 = Some (st', result) ∧
    result ≠ [] ∧
    diagnosed_with st' = diagnosed_with flu_covid ∧
    person_nodes st' = person_nodes flu_covid ∧
    (result ≠ [] →
     ∃ d, last (audit st') = Some {| action := "CREATE_DIAGNOSIS"; details := d |}).
Proof.
  eexists _, _. split; [vm_compute; reflexivity|]. split; [done|].
  apply (unregistered_patient_diagnosis UNUSUAL_THRESH_default MIN_PROB_default ∅
           (λ _ _ _, half) None flu_covid "Ann" ["fever"] "w" 10).
  - compute_done.
  - vm_compute. reflexivity.
Defined.

(** *** Users and their diagnoses *)

Lemma create_user_cli_fields st roles name answer :
  let role := if PyStr.truthy answer then answer else "User" in
  let r := create_user_cli st roles name answer in
  person_nodes r.1 = merge (person_nodes st) name ∧
  disease_nodes r.1 = disease_nodes st ∧ symptom_nodes r.1 = symptom_nodes st ∧
  has_symptom r.1 = has_symptom st ∧ diagnosed_with r.1 = diagnosed_with st ∧
  special_cases r.1 = special_cases st ∧
  action <$> audit r.1 = (action <$> audit st) ++ ["MERGE_PERSON"; "USER_CREATED"] ∧
  r.2 = (if decide (name ∈ person_nodes st)
         then match roles !! name with
              | Some _ => roles
              | None => <[name := role]> roles
              end
         else <[name := role]> roles).
Proof.
  unfold create_user_cli, merge_person. cbn.
  split_and!; [done..| |done].
  by rewrite !fmap_app, <-(assoc_L (++)).
Qed.

Lemma create_users_cons st roles u users :
  create_users st roles (u :: users)
  = create_users (create_user_cli st roles u.1 u.2).1
      (create_user_cli st roles u.1 u.2).2 users.
Proof.
  unfold create_users. cbn [foldl fst snd].
  by destruct (create_user_cli st roles u.1 u.2).
Qed.

Lemma create_users_keep st roles users name role :
  name ∈ person_nodes st → roles !! name = Some role →
  name ∈ person_nodes (create_users st roles users).1 ∧
  (create_users st roles users).2 !! name = Some role.
Proof.
  revert st roles. induction users as [|[n a] users IH]; intros st roles Hin Hrole;
    [done|].
  rewrite create_users_cons. cbn [fst snd].
  destruct (create_user_cli_fields st roles n a) as (Hp & _ & _ & _ & _ & _ & _ & Hr).
  apply IH.
  - rewrite Hp. apply elem_of_merge. by left.
  - rewrite Hr. case_decide as Hn.
    + destruct (roles !! n) eqn:Hl; [done|].
      rewrite lookup_insert_ne; [done|]. intros ->. by rewrite Hl in Hrole.
    + rewrite lookup_insert_ne; [done|]. by intros ->.
Qed.

(** X25: a role once given is kept: whatever users are created
    afterwards, under the same name or another and with whatever role,
    a person who has a role keeps the node and this role. A new name
    gets the role that was entered, and User for an empty answer. *)
Theorem role_is_kept st roles users name role :
  name ∈ person_nodes st → roles !! name = Some role →
  let r := create_users st roles users in
  name ∈ person_nodes r.1 ∧ r.2 !! name = Some role ∧
  ∀ new answer, new ∉ person_nodes r.1 →
    (create_user_cli r.1 r.2 new answer).2 !! new
    = Some (if PyStr.truthy answer then answer else "User").
Proof.
  intros Hin Hrole r. subst r.
  destruct (create_users_keep st roles users name role Hin Hrole) as [Hp Hr].
  split_and!; [done..|].
  intros new answer Hnew.
  destruct (create_user_cli_fields (create_users st roles users).1
              (create_users st roles users).2 new answer)
    as (_ & _ & _ & _ & _ & _ & _ & ->).
  rewrite decide_False by done. by rewrite lookup_insert_eq.
Qed.

(** Ann is an Admin; she is entered again as a User, after Bob. *)
Lemma role_is_kept_witness :
  let r := create_users (create_user_cli flu_covid ∅ "Ann" "Admin").1
             (create_user_cli flu_covid ∅ "Ann" "Admin").2
             [("Bob", ""); ("Ann", "User")] in
  "Ann" ∈ person_nodes r.1 ∧ r.2 !! "Ann" = Some "Admin" ∧
  ∀ new answer, new ∉ person_nodes r.1 →
    (create_user_cli r.1 r.2 new answer).2 !! new
    = Some (if PyStr.truthy answer then answer else "User").
Proof.
  apply (role_is_kept (create_user_cli flu_covid ∅ "Ann" "Admin").1
           (create_user_cli flu_covid ∅ "Ann" "Admin").2
           [("Bob", ""); ("Ann", "User")] "Ann" "Admin").
  - compute_done.
  - compute_done.
Defined.

(** X26: for a patient entered with [create_user_cli] the best guess of
    [bayes_utils.diagnose_patient] is stored: when the attempt returns a
    result whose best guess is a disease of the graph, the patient has
    afterwards exactly one relationship to this disease, with the
    probability of the best guess, and the relationships of the other
    pairs are those from before the attempt. *)
Theorem registered_patient_diagnosis T MIN_PROB probs posterior cache st roles person
    answer entries mode ts st' kv rest :
  let st0 := (create_user_cli st roles person answer).1 in
  let best := py_argmax kv rest in
  (bayes_diagnose_patient T MIN_PROB probs posterior cache st0 person entries
     mode ts).1 = Some (st', kv :: rest) →
  best.1 ∈ disease_nodes st →
  (∀ c, (person, best.1, c) ∈ diagnosed_with st' ↔ c = best.2) ∧
  (∀ p d c, (p, d) ≠ (person, best.1) →
     ((p, d, c) ∈ diagnosed_with st' ↔ (p, d, c) ∈ diagnosed_with st)).
Proof.
  intros st0 best (st1 & -> & _ & Hd & Hp & _ & Hg)%bayes_attempt_frame Hbest.
  destruct (create_user_cli_fields st roles person answer)
    as (Hp0 & Hd0 & _ & _ & Hg0 & _).
  fold st0 in Hp0, Hd0, Hg0.
  assert (person ∈ person_nodes st1 ∧ best.1 ∈ disease_nodes st1) as Hboth.
  { rewrite Hp, Hp0, Hd, Hd0. split; [|done]. apply elem_of_merge. by right. }
  cbn [record_best]. fold best. unfold create_diagnosis.
  cbn [log_audit diagnosed_with]. rewrite decide_True by done.
  rewrite <-Hg0, <-Hg. split.
  - intros c. rewrite elem_of_app, list_elem_of_filter, list_elem_of_singleton.
    cbn [fst]. split; [intros [[? _]|[= ->]]; done|intros ->; by right].
  - intros p d c Hne.
    rewrite elem_of_app, list_elem_of_filter, list_elem_of_singleton. cbn [fst].
    split; [intros [[_ ?]|[= -> -> _]]; done|intros ?; by left].
Qed.

(** Ann is entered and then diagnosed with a fever; Flu is the first of
    the two diseases with the greatest posterior. *)
Lemma registered_patient_diagnosis_witness :
  ∃ st' kv rest,
    (bayes_diagnose_patient UNUSUAL_THRESH_default MIN_PROB_default ∅
       (λ _ _ _, half) None (create_user_cli flu_covid ∅ "Ann" "").1 "Ann"
       ["fever"] "w" 10).1 = Some (st', kv :: rest) ∧
    (py_argmax kv rest).1 = "Flu" ∧
    (∀ c, ("Ann", (py_argmax kv rest).1, c) ∈ diagnosed_with st' ↔
          c = (py_argmax kv rest).2) ∧
    (∀ p d c, (p, d) ≠ ("Ann", (py_argmax kv rest).1) →
       ((p, d, c) ∈ diagnosed_with st' ↔ (p, d, c) ∈ diagnosed_with flu_covid)).
Proof.
  eexists _, _, _. split; [vm_compute; reflexivity|]. split; [compute_done|].
  apply (registered_patient_diagnosis UNUSUAL_THRESH_default MIN_PROB_default ∅
           (λ _ _ _, half) None flu_covid ∅ "Ann" "" ["fever"] "w" 10).
  - vm_compute. reflexivity.
  - compute_done.
Defined.
